(** * Mempool lane validation and transaction gossip reactor

    A shallow embedding of [mempool/lanes_info.go] (the lane validator) and of
    the mempool reactor ([Receive], [broadcastTxRoutine], the sender map and
    [updateSendersRoutine]), followed by the properties established about
    them. *)

From Stdlib Require Import ZArith Lia.
From Stdlib.Strings Require Import Byte.
From stdpp Require Import base option list strings gmap fin_sets fin_maps.

#[local] Set Warnings "-clear-no-such-hyp".

(* ===================================================================== *)
(** * Part I.  Definitions                                                *)
(* ===================================================================== *)

(** ** Lane validator ([mempool/lanes_info.go]) *)

(** [types.LaneID] is declared in package [types], outside the two files
    modelled here.  The validator
    only converts map keys (strings) to it and uses the results as keys of a
    Go map, so all it needs is a comparable type together with the
    conversion; both are kept abstract.  (Go only admits the conversion
    [types.LaneID(s)] of a string [s] when [LaneID] has underlying type
    [string]; [string_LaneID] below is that reading.) *)
Class LaneIDType := {
  LaneID : Type;
  LaneID_eq_dec :: EqDecision LaneID;
  LaneID_countable :: Countable LaneID;
  to_LaneID : string → LaneID;
}.

#[export] Instance string_LaneID : LaneIDType :=
  {| LaneID := string; to_LaneID := λ s, s |}.

(** [uint32] priorities are natural numbers below [2^32]; the validator
    never computes with them. *)
Abbreviation uint32 := N (only parsing).

(** [type LaneData struct { lanes map[string]uint32; defaultLane string }] *)
Record LaneData := {
  lanes : gmap string uint32;
  defaultLane : string;
}.

(** The four structured errors; each carries the offending configuration
    in its [Info] field. *)
Inductive LaneError :=
| ErrEmptyLanesDefaultLaneSet (Info : LaneData)
| ErrBadDefaultLaneNonEmptyLaneList (Info : LaneData)
| ErrDefaultLaneNotInList (Info : LaneData)
| ErrRepeatedLanes (Info : LaneData).

(** The Go [error] interface value: [nil] is [None]. *)
Abbreviation error := (option LaneError) (only parsing).

(** [lanesSet := make(map[types.LaneID]struct{});
     for laneID := range info.lanes { lanesSet[types.LaneID(laneID)] = struct{}{} }] *)
Definition lanesSet `{LaneIDType} (m : gmap string uint32) : gset LaneID :=
  map_fold (λ laneID _ acc, {[ to_LaneID laneID ]} ∪ acc) ∅ m.

Definition validate `{LaneIDType} (info : LaneData) : error :=
  (* If no lanes are provided the default priority is 0 *)
  if (size (lanes info) =? 0)%nat && String.eqb (defaultLane info) EmptyString then None
  (* Default lane is set but empty lane list *)
  else if (size (lanes info) =? 0)%nat && negb (String.eqb (defaultLane info) EmptyString)
  then Some (ErrEmptyLanesDefaultLaneSet info)
  (* Lane 0 is reserved for when there are no lanes or for invalid txs; it
     should not be used for the default lane. *)
  else if String.eqb (defaultLane info) EmptyString && negb (size (lanes info) =? 0)%nat
  then Some (ErrBadDefaultLaneNonEmptyLaneList info)
  else match lanes info !! defaultLane info with
  | None => Some (ErrDefaultLaneNotInList info)
  | Some _ =>
      if negb (size (lanes info) =? size (lanesSet (lanes info)))%nat
      then Some (ErrRepeatedLanes info)
      else None
  end.

(** [BuildLanesInfo] returns the Go pair of a [LaneData] pointer and an [error]. *)
Definition BuildLanesInfo `{LaneIDType}
    (laneList : gmap string uint32) (defLane : string)
  : option LaneData * error :=
  let info := {| lanes := laneList; defaultLane := defLane |} in
  match validate info with
  | Some err => (None, Some err)
  | None => (Some info, None)
  end.

(** *** The invariants of a lane configuration, as the specification words
    them (data model, items 1 to 4). *)

Definition inv1 (info : LaneData) : Prop :=
  size (lanes info) = 0%nat → defaultLane info = EmptyString.
Definition inv2 (info : LaneData) : Prop :=
  defaultLane info ≠ EmptyString → size (lanes info) ≠ 0%nat.
Definition inv3 (info : LaneData) : Prop :=
  size (lanes info) ≠ 0%nat →
  defaultLane info ≠ EmptyString ∧ is_Some (lanes info !! defaultLane info).
Definition inv4 `{LaneIDType} (info : LaneData) : Prop :=
  ∀ n1 n2, is_Some (lanes info !! n1) → is_Some (lanes info !! n2) →
           to_LaneID n1 = to_LaneID n2 → n1 = n2.

Definition inv1b (info : LaneData) : bool :=
  negb (size (lanes info) =? 0)%nat || String.eqb (defaultLane info) EmptyString.
Definition inv2b (info : LaneData) : bool :=
  String.eqb (defaultLane info) EmptyString || negb (size (lanes info) =? 0)%nat.
Definition inv3b (info : LaneData) : bool :=
  (size (lanes info) =? 0)%nat
  || (negb (String.eqb (defaultLane info) EmptyString)
      && bool_decide (is_Some (lanes info !! defaultLane info))).
Definition inv4b `{LaneIDType} (info : LaneData) : bool :=
  bool_decide (NoDup (to_LaneID <$> (map_to_list (lanes info)).*1)).

(** The validator read literally from the specification: the four
    invariants are checked in their order and the k-th error kind is
    returned when the k-th invariant is the first one violated. *)
Definition spec_validate `{LaneIDType} (info : LaneData) : error :=
  if negb (inv1b info) then Some (ErrEmptyLanesDefaultLaneSet info)
  else if negb (inv2b info) then Some (ErrBadDefaultLaneNonEmptyLaneList info)
  else if negb (inv3b info) then Some (ErrDefaultLaneNotInList info)
  else if negb (inv4b info) then Some (ErrRepeatedLanes info)
  else None.

(** The default lane's numeric value: the [uint32] its name maps to. *)
Definition defaultLaneValue (info : LaneData) : option uint32 :=
  lanes info !! defaultLane info.

(** ** Mempool reactor *)

(** [types.Tx] is a byte slice. *)
Abbreviation Tx := (list byte) (only parsing).

#[export] Instance byte_eq_dec : EqDecision byte := Byte.byte_eq_dec.
#[export] Instance byte_countable : Countable byte :=
  inj_countable Byte.to_N Byte.of_N Byte.of_to_N.

(** Peer IDs are [uint16], heights are [int64]. *)
Abbreviation uint16 := N (only parsing).
Abbreviation int64 := Z (only parsing).

(** Two's complement wrap-around of [int64] arithmetic. *)
Definition wrap_int64 (z : Z) : Z :=
  ((z + 2 ^ 63) mod 2 ^ 64 - 2 ^ 63)%Z.
Definition sub_int64 (a b : int64) : int64 := wrap_int64 (a - b).
Definition in_int64 (z : Z) : Prop := (- 2 ^ 63 ≤ z < 2 ^ 63)%Z.

(** The part of [mempoolTx] the reactor reads: the height at which the
    transaction entered the pool and the transaction itself. *)
Record mempoolTx := {
  height : int64;
  tx : Tx;
}.
Definition Height (memTx : mempoolTx) : int64 := height memTx.

(** A [clist.CElement]: the handle a broadcast cursor holds.  [elem_id]
    stands for the identity of the pointer. *)
Record CElement := {
  elem_id : nat;
  Value : mempoolTx;
}.

(** What the reactor uses and the two files modelled here do not define:
    the hash
    [Tx.Key], peers and their short ids ([mempoolIDs.GetForPeer]), the pool
    [CListMempool] with its admission operation [CheckTx] and its cursor
    primitives [TxsFront] and [CElement.Next], the test
    [errors.Is(err, ErrTxInCache)], and the constant
    [PeerCatchupSleepIntervalMS].  They are parameters of the model. *)
Class Collaborators := {
  TxKey : Type;
  TxKey_eq_dec :: EqDecision TxKey;
  TxKey_countable :: Countable TxKey;
  Key : Tx → TxKey;
  Peer : Type;
  GetForPeer : Peer → uint16;
  CListMempool : Type;
  CheckTxError : Type;
  CheckTx : Tx → CListMempool → CListMempool * option CheckTxError;
  is_ErrTxInCache : CheckTxError → bool;
  TxsFront : CListMempool → option CElement;
  Next : CElement → CListMempool → option CElement;
  PeerCatchupSleepIntervalMS : Z;
}.

(** The mutable fields of [Reactor] that the modelled methods touch.
    [txSenders] is [map[types.TxKey]map[uint16]bool]. *)
Record Reactor `{Collaborators} := {
  mempool : CListMempool;
  txSenders : gmap TxKey (gmap uint16 bool);
}.

(** *** The sender map *)

Definition isSender `{Collaborators}
    (memR : Reactor) (txKey : TxKey) (peerID : uint16) : bool :=
  match txSenders memR !! txKey with
  | Some sendersSet => default false (sendersSet !! peerID)
  | None => false
  end.

Definition addSender `{Collaborators}
    (memR : Reactor) (txKey : TxKey) (senderID : uint16) : Reactor * bool :=
  match txSenders memR !! txKey with
  | Some sendersSet =>
      let sendersSet := <[senderID := true]> sendersSet in
      ({| mempool := mempool memR;
          txSenders := <[txKey := sendersSet]> (txSenders memR) |}, false)
  | None =>
      ({| mempool := mempool memR;
          txSenders := <[txKey := {[senderID := true]}]> (txSenders memR) |},
       true)
  end.

Definition removeSenders `{Collaborators}
    (memR : Reactor) (txKey : TxKey) : Reactor :=
  {| mempool := mempool memR; txSenders := delete txKey (txSenders memR) |}.

(** What [updateSendersRoutine]'s [select] receives, one entry per turn of
    its loop: a key from [TxsRemoved()] or the closing of [Quit()]. *)
Inductive SendersSelect `{Collaborators} :=
| RecvTxsRemoved (txKey : TxKey)
| RecvQuit.

(** The routine over the deliveries it receives; when they run out it is
    blocked in its [select]. *)
Fixpoint updateSendersRoutine `{Collaborators}
    (deliveries : list SendersSelect) (memR : Reactor) : Reactor :=
  match deliveries with
  | [] => memR
  | RecvTxsRemoved txKey :: rest =>
      updateSendersRoutine rest (removeSenders memR txKey)
  | RecvQuit :: _ => memR
  end.

(** The operations on the sender map, for talking about its history. *)
Inductive SenderOp `{Collaborators} :=
| OpAddSender (txKey : TxKey) (senderID : uint16)
| OpRemoveSenders (txKey : TxKey).

Definition apply_op `{Collaborators} (memR : Reactor) (op : SenderOp) : Reactor :=
  match op with
  | OpAddSender k id => (addSender memR k id).1
  | OpRemoveSenders k => removeSenders memR k
  end.

Definition apply_ops `{Collaborators}
    (ops : list SenderOp) (memR : Reactor) : Reactor :=
  foldl apply_op memR ops.

(** *** Effects of the reactor *)

(** What the reactor does to the outside, in the order it does it.  A call
    of [CheckTx] is recorded with the reactor state it is made in and with
    the error it returns; a [Send] with its result. *)
Inductive Event `{Collaborators} :=
| LogDebug (msg : string)
| LogInfo (msg : string)
| LogError (msg : string)
| CallAddSender (txKey : TxKey) (senderID : uint16)
| CallCheckTx (t : Tx) (at_call : Reactor) (err : option CheckTxError)
| StopPeerForError (src : Peer)
| Sleep (ms : Z)
| Send (t : Tx) (success : bool).

(** A method of the reactor: it may change the reactor and leaves a trace. *)
Definition Action `{Collaborators} (A : Type) : Type :=
  Reactor → A * Reactor * list Event.

Definition act_ret `{Collaborators} {A} (a : A) : Action A :=
  λ memR, (a, memR, []).
Definition act_bind `{Collaborators} {A B}
    (m : Action A) (k : A → Action B) : Action B :=
  λ memR,
    let '(a, memR1, t1) := m memR in
    let '(b, memR2, t2) := k a memR1 in
    (b, memR2, t1 ++ t2).
Definition emit `{Collaborators} (ev : Event) : Action unit :=
  λ memR, (tt, memR, [ev]).

Notation "x <~ m ;; k" := (act_bind m (λ x, k))
  (at level 100, m at next level, right associativity).
Notation "m ;;; k" := (act_bind m (λ _, k))
  (at level 100, right associativity).

(** [memR.addSender(...)] and [memR.mempool.CheckTx(tx)] as actions. *)
Definition do_addSender `{Collaborators}
    (txKey : TxKey) (senderID : uint16) : Action bool :=
  λ memR,
    let '(memR', fresh) := addSender memR txKey senderID in
    (fresh, memR', [CallAddSender txKey senderID]).

Definition do_CheckTx `{Collaborators} (t : Tx) : Action (option CheckTxError) :=
  λ memR,
    let '(mp, err) := CheckTx t (mempool memR) in
    (err, {| mempool := mp; txSenders := txSenders memR |},
     [CallCheckTx t memR err]).

(** *** [Receive] *)

(** The dynamic type of [e.Message]: [*protomem.Txs], or anything else. *)
Inductive Message :=
| MsgTxs (Txs : list Tx)
| MsgOther (type_name : string).

Record Envelope `{Collaborators} := {
  Src : Peer;
  ChannelID : N;
  Message_ : Message;
}.

(** The body of [for _, txBytes := range protoTxs]. *)
Fixpoint Receive_range `{Collaborators}
    (src : Peer) (protoTxs : list Tx) : Action unit :=
  match protoTxs with
  | [] => act_ret tt
  | txBytes :: rest =>
      (* Record the sender of every transaction received. *)
      do_addSender (Key txBytes) (GetForPeer src) ;;;
      err <~ do_CheckTx txBytes ;;
      match err with
      | Some e =>
          if is_ErrTxInCache e
          then emit (LogDebug "Tx already exists in cache")
          else emit (LogInfo "Could not check tx")
      | None => act_ret tt
      end ;;;
      Receive_range src rest
  end.

Definition Receive `{Collaborators} (e : Envelope) : Action unit :=
  emit (LogDebug "Receive") ;;;
  match Message_ e with
  | MsgTxs protoTxs =>
      if (length protoTxs =? 0)%nat
      then emit (LogError "received empty txs from peer")
      else Receive_range (Src e) protoTxs
  | MsgOther _ =>
      emit (LogError "unknown message type") ;;;
      emit (StopPeerForError (Src e))
  end.

(** The calls into the sender map and the pool that a trace contains. *)
Inductive Call `{Collaborators} :=
| AddSenderCall (txKey : TxKey) (senderID : uint16)
| CheckTxCall (t : Tx).

Definition call_of `{Collaborators} (ev : Event) : option Call :=
  match ev with
  | CallAddSender k id => Some (AddSenderCall k id)
  | CallCheckTx t _ _ => Some (CheckTxCall t)
  | _ => None
  end.

Definition checked_tx `{Collaborators} (ev : Event) : option Tx :=
  match ev with
  | CallCheckTx t _ _ => Some t
  | _ => None
  end.

Definition is_StopPeerForError `{Collaborators} (ev : Event) : bool :=
  match ev with
  | StopPeerForError _ => true
  | _ => false
  end.

(** The log line [Receive] writes for an admission error. *)
Definition admission_error_log `{Collaborators} (e : CheckTxError) : Event :=
  if is_ErrTxInCache e
  then LogDebug "Tx already exists in cache"
  else LogInfo "Could not check tx".

(** The log lines of one admission result. *)
Definition admission_log `{Collaborators}
    (err : option CheckTxError) : list Event :=
  match err with
  | Some e => [admission_error_log e]
  | None => []
  end.

(** *** [broadcastTxRoutine] *)

(** Which case of a [select] fires: the wait channel ([TxsWaitChan()] in the
    first [select] of the loop, [next.NextWaitChan()] in the last), or one of
    the two quit channels. *)
Inductive Select :=
| WaitChanReady
| PeerQuit
| ReactorQuit.

(** What one turn of the loop reads from outside its own variables, each at
    the moment the code reads it.  The reactor is shared with [Receive] and
    [updateSendersRoutine], so every read has a snapshot of its own. *)
Record Observation `{Collaborators} := {
  memR_IsRunning : bool;
  peer_IsRunning : bool;
  select_TxsWaitChan : Select;
  at_TxsFront : Reactor;
  (** [peer.Get(types.PeerStateKey).(PeerState)]: the peer's height when the
      assertion succeeds. *)
  peer_state : option int64;
  at_isSender : Reactor;
  (** the result of [peer.Send] *)
  peer_Send : bool;
  select_NextWaitChan : Select;
  at_Next : Reactor;
}.

(** How a turn of the loop ends: [return], or back to the top of [for] with
    the value of the cursor [next]. *)
Inductive Control :=
| LoopReturn
| LoopContinue (next : option CElement).

(** [peerState.GetHeight() < memTx.Height()-1] *)
Definition peer_lags `{Collaborators}
    (peerHeight : int64) (memTx : mempoolTx) : bool :=
  (peerHeight <? sub_int64 (Height memTx) 1)%Z.

(** The closing [select] of the loop. *)
Definition advance `{Collaborators}
    (o : Observation) (next : CElement) : Control * list Event :=
  match select_NextWaitChan o with
  | WaitChanReady => (LoopContinue (Next next (mempool (at_Next o))), [])
  | PeerQuit | ReactorQuit => (LoopReturn, [])
  end.

(** From [if !memR.isSender(memTx.tx.Key(), peerID)] to the end of the loop
    body. *)
Definition send_decision `{Collaborators}
    (peerID : uint16) (o : Observation) (next : CElement)
  : Control * list Event :=
  let memTx := Value next in
  if negb (isSender (at_isSender o) (Key (tx memTx)) peerID) then
    let success := peer_Send o in
    if negb success
    then (LoopContinue (Some next),
          [Send (tx memTx) false; Sleep PeerCatchupSleepIntervalMS])
    else let '(c, evs) := advance o next in (c, Send (tx memTx) true :: evs)
  else advance o next.

(** From [peerState, ok := ...] on, with the cursor at [next]. *)
Definition with_cursor `{Collaborators}
    (peerID : uint16) (o : Observation) (next : CElement)
  : Control * list Event :=
  match peer_state o with
  | None => (LoopContinue (Some next), [Sleep PeerCatchupSleepIntervalMS])
  | Some peerHeight =>
      if peer_lags peerHeight (Value next)
      then (LoopContinue (Some next), [Sleep PeerCatchupSleepIntervalMS])
      else send_decision peerID o next
  end.

(** The cursor after [if next == nil { select ... }]: an element to go on
    with, or the way the turn ends there. *)
Definition resolve_cursor `{Collaborators}
    (o : Observation) (next : option CElement) : CElement + Control :=
  match next with
  | Some e => inl e
  | None =>
      match select_TxsWaitChan o with
      | WaitChanReady =>
          match TxsFront (mempool (at_TxsFront o)) with
          | Some e => inl e
          | None => inr (LoopContinue None)
          end
      | PeerQuit | ReactorQuit => inr LoopReturn
      end
  end.

(** One turn of the [for] loop. *)
Definition broadcast_turn `{Collaborators}
    (peerID : uint16) (o : Observation) (next : option CElement)
  : Control * list Event :=
  if negb (memR_IsRunning o) || negb (peer_IsRunning o) then (LoopReturn, [])
  else match resolve_cursor o next with
       | inl e => with_cursor peerID o e
       | inr c => (c, [])
       end.

(** The loop from a given cursor, over the observations of its turns; when
    they run out the routine is still running. *)
Fixpoint broadcast_loop `{Collaborators}
    (peerID : uint16) (obs : list Observation) (next : option CElement)
  : list Event :=
  match obs with
  | [] => []
  | o :: rest =>
      let '(c, evs) := broadcast_turn peerID o next in
      match c with
      | LoopReturn => evs
      | LoopContinue next' => evs ++ broadcast_loop peerID rest next'
      end
  end.

Definition broadcastTxRoutine `{Collaborators}
    (peer : Peer) (obs : list Observation) : list Event :=
  let peerID := GetForPeer peer in
  broadcast_loop peerID obs None.

(** *** A list model of the pool *)

(** Modelled from the spec: the ordered store behind [CheckTx], [TxsFront]
    and [CElement.Next] ([CListMempool] and [libs/clist] are not among the
    files modelled here).  The store is a sequence appended at the tail;
    admission rejects a transaction whose bytes are already present and
    otherwise appends it with the current height; [Front()] is the oldest
    element still present, or none; [Next()] is the handle that follows, or
    none when there is no successor or when the handle itself was removed,
    in which case the traversal restarts from [Front()]. *)
Record ListPool := {
  lp_height : int64;
  lp_next_id : nat;
  lp_elems : list CElement;
}.

Inductive ListPoolError :=
| LpErrTxInCache
| LpErrRejected.

Definition lp_CheckTx (t : Tx) (mp : ListPool) : ListPool * option ListPoolError :=
  if existsb (λ e, bool_decide (tx (Value e) = t)) (lp_elems mp)
  then (mp, Some LpErrTxInCache)
  else ({| lp_height := lp_height mp;
           lp_next_id := S (lp_next_id mp);
           lp_elems := lp_elems mp
                       ++ [{| elem_id := lp_next_id mp;
                              Value := {| height := lp_height mp; tx := t |} |}] |},
        None).

Definition lp_TxsFront (mp : ListPool) : option CElement := head (lp_elems mp).

Fixpoint successor_in (e : CElement) (l : list CElement) : option CElement :=
  match l with
  | [] => None
  | x :: rest =>
      if (elem_id x =? elem_id e)%nat then head rest else successor_in e rest
  end.

Definition lp_Next (e : CElement) (mp : ListPool) : option CElement :=
  successor_in e (lp_elems mp).

Definition lp_remove (e : CElement) (mp : ListPool) : ListPool :=
  {| lp_height := lp_height mp;
     lp_next_id := lp_next_id mp;
     lp_elems := filter (λ x, elem_id x ≠ elem_id e) (lp_elems mp) |}.

(** The collaborators over the list model: the key of a transaction is the
    transaction itself (an injective stand-in for its hash), peers are
    numbered, and the sleep interval is 100 ms. *)
#[export] Instance list_collaborators : Collaborators := {|
  TxKey := Tx;
  Key := λ t, t;
  Peer := nat;
  GetForPeer := N.of_nat;
  CListMempool := ListPool;
  CheckTxError := ListPoolError;
  CheckTx := lp_CheckTx;
  is_ErrTxInCache := λ e, match e with LpErrTxInCache => true | _ => false end;
  TxsFront := lp_TxsFront;
  Next := lp_Next;
  PeerCatchupSleepIntervalMS := 100;
|}.

(** A peer, two transactions and a reactor over the list model. *)
Definition tx_T : Tx := [x01%byte].
Definition tx_U : Tx := [x02%byte].
Definition empty_pool : ListPool :=
  {| lp_height := 1; lp_next_id := 0; lp_elems := [] |}.
Definition fresh_reactor : Reactor :=
  {| mempool := empty_pool; txSenders := ∅ |}.
Definition envelope_from (src : nat) (m : Message) : Envelope :=
  {| Src := src; ChannelID := 48; Message_ := m |}.

(** A run of the broadcast loop for peer 3 over the list model.  The pool
    holds T then U, both admitted at height 1; the peer is at height 1 and
    never sent anything, so the sender map stays empty.  Turn 1 finds T at
    the front and sends it, turn 2 sends U; while the loop waits for a
    successor of U, U is removed from the pool; turn 3 restarts from the
    front, where T still is, and the peer quits while the loop waits for a
    successor of T. *)
Definition pool_TU : ListPool :=
  (lp_CheckTx tx_U (lp_CheckTx tx_T empty_pool).1).1.
Definition elem_T : CElement :=
  {| elem_id := 0; Value := {| height := 1; tx := tx_T |} |}.
Definition elem_U : CElement :=
  {| elem_id := 1; Value := {| height := 1; tx := tx_U |} |}.
Definition pool_T : ListPool := lp_remove elem_U pool_TU.
Definition reactor_TU : Reactor := {| mempool := pool_TU; txSenders := ∅ |}.
Definition reactor_T : Reactor := {| mempool := pool_T; txSenders := ∅ |}.

Definition turn_1 : Observation :=
  {| memR_IsRunning := true; peer_IsRunning := true;
     select_TxsWaitChan := WaitChanReady; at_TxsFront := reactor_TU;
     peer_state := Some 1%Z; at_isSender := reactor_TU; peer_Send := true;
     select_NextWaitChan := WaitChanReady; at_Next := reactor_TU |}.
Definition turn_2 : Observation :=
  {| memR_IsRunning := true; peer_IsRunning := true;
     select_TxsWaitChan := WaitChanReady; at_TxsFront := reactor_TU;
     peer_state := Some 1%Z; at_isSender := reactor_TU; peer_Send := true;
     select_NextWaitChan := WaitChanReady; at_Next := reactor_T |}.
Definition turn_3 : Observation :=
  {| memR_IsRunning := true; peer_IsRunning := true;
     select_TxsWaitChan := WaitChanReady; at_TxsFront := reactor_T;
     peer_state := Some 1%Z; at_isSender := reactor_T; peer_Send := true;
     select_NextWaitChan := PeerQuit; at_Next := reactor_T |}.

(** An element admitted at height 5, four blocks ahead of the peer. *)
Definition elem_late : CElement :=
  {| elem_id := 2; Value := {| height := 5; tx := tx_U |} |}.

(** A turn in which the peer is in step, is no sender, and [Send] fails. *)
Definition turn_backpressure : Observation :=
  {| memR_IsRunning := true; peer_IsRunning := true;
     select_TxsWaitChan := WaitChanReady; at_TxsFront := reactor_TU;
     peer_state := Some 1%Z; at_isSender := reactor_TU; peer_Send := false;
     select_NextWaitChan := WaitChanReady; at_Next := reactor_TU |}.

(** A turn in which peer 3 is recorded as a sender of T. *)
Definition reactor_T_from_3 : Reactor := (addSender reactor_TU tx_T 3%N).1.
Definition turn_known_sender : Observation :=
  {| memR_IsRunning := true; peer_IsRunning := true;
     select_TxsWaitChan := WaitChanReady; at_TxsFront := reactor_TU;
     peer_state := Some 1%Z; at_isSender := reactor_T_from_3;
     peer_Send := true;
     select_NextWaitChan := WaitChanReady; at_Next := reactor_TU |}.

(** Concrete lane configurations used below. *)
Definition cfg_lanes_without_default : LaneData :=
  {| lanes := {[ "a" := 1%N ]}; defaultLane := EmptyString |}.
Definition cfg_default_priority_zero : LaneData :=
  {| lanes := {[ "a" := 0%N ]}; defaultLane := "a" |}.
Definition cfg_two_lanes : LaneData :=
  {| lanes := {[ "a" := 1%N; "b" := 2%N ]}; defaultLane := "b" |}.

(** *** Further definitions for the properties of Part III *)

(** [NewReactor]: of the fields modelled, the pool is the one given and the
    sender map is [make(map[types.TxKey]map[uint16]bool)]. *)
Definition NewReactor `{Collaborators} (mp : CListMempool) : Reactor :=
  {| mempool := mp; txSenders := ∅ |}.

(** The keys [updateSendersRoutine] receives before its first quit. *)
Fixpoint removed_before_quit `{Collaborators}
    (deliveries : list SendersSelect) : list TxKey :=
  match deliveries with
  | [] => []
  | RecvTxsRemoved txKey :: rest => txKey :: removed_before_quit rest
  | RecvQuit :: _ => []
  end.

Definition is_Send `{Collaborators} (ev : Event) : bool :=
  match ev with
  | Send _ _ => true
  | _ => false
  end.

(** A turn observes that the reactor or the peer has stopped. *)
Definition stopped `{Collaborators} (o : Observation) : Prop :=
  memR_IsRunning o = false ∨ peer_IsRunning o = false.

(** A stretch of turns in which everything goes well along a chain of
    elements: reactor and peer run, the peer has a state and does not lag
    behind the element under the cursor, is no sender of it, accepts the
    send, and the wait for a successor ends with the next element of the
    chain (none after the last). *)
Fixpoint in_step_chain `{Collaborators}
    (peerID : uint16) (obs : list Observation) (elems : list CElement)
  : Prop :=
  match obs, elems with
  | [], [] => True
  | o :: obs', e :: elems' =>
      memR_IsRunning o = true ∧ peer_IsRunning o = true
      ∧ (∃ peerHeight, peer_state o = Some peerHeight
                       ∧ peer_lags peerHeight (Value e) = false)
      ∧ isSender (at_isSender o) (Key (tx (Value e))) peerID = false
      ∧ peer_Send o = true
      ∧ select_NextWaitChan o = WaitChanReady
      ∧ Next e (mempool (at_Next o)) = head elems'
      ∧ in_step_chain peerID obs' elems'
  | _, _ => False
  end.

(** An element was handed to the loop in one of its turns: by [TxsFront()]
    or by the [Next()] of some element. *)
Definition handed_out `{Collaborators}
    (obs : list Observation) (e : CElement) : Prop :=
  ∃ o, o ∈ obs
       ∧ (TxsFront (mempool (at_TxsFront o)) = Some e
          ∨ ∃ e0, Next e0 (mempool (at_Next o)) = Some e).

(** A turn in which the peer has stopped, and one in which the peer has no
    state yet. *)
Definition turn_peer_gone : Observation :=
  {| memR_IsRunning := true; peer_IsRunning := false;
     select_TxsWaitChan := WaitChanReady; at_TxsFront := reactor_TU;
     peer_state := Some 1%Z; at_isSender := reactor_TU; peer_Send := true;
     select_NextWaitChan := WaitChanReady; at_Next := reactor_TU |}.
Definition turn_no_state : Observation :=
  {| memR_IsRunning := true; peer_IsRunning := true;
     select_TxsWaitChan := WaitChanReady; at_TxsFront := reactor_TU;
     peer_state := None; at_isSender := reactor_TU; peer_Send := true;
     select_NextWaitChan := WaitChanReady; at_Next := reactor_TU |}.

(* ===================================================================== *)
(** * Part II.  Properties                                                *)
(* ===================================================================== *)

Section lane_validator.
  Context `{LaneIDType}.

(** The loop of [validate] collects the converted names of all keys. *)
Lemma lanesSet_keys (m : gmap string N) :
  lanesSet m = list_to_set (to_LaneID <$> (map_to_list m).*1).
Proof.
  unfold lanesSet. rewrite map_fold_foldr.
  induction (map_to_list m) as [|[k v] l IH]; simpl; [done|].
  by rewrite IH.
Qed.

Lemma size_list_to_set_le (l : list LaneID) :
  size (list_to_set (C:=gset LaneID) l) ≤ length l.
Proof.
  induction l as [|x l IH].
  - rewrite list_to_set_nil, size_empty. done.
  - rewrite list_to_set_cons, length_cons.
    destruct (decide (x ∈ (list_to_set l : gset LaneID))) as [Hin|Hin].
    + assert ({[x]} ∪ list_to_set l = (list_to_set l : gset LaneID)) as ->
        by set_solver. lia.
    + rewrite size_union by set_solver. rewrite size_singleton. lia.
Qed.

Lemma size_list_to_set_NoDup (l : list LaneID) :
  size (list_to_set (C:=gset LaneID) l) = length l ↔ NoDup l.
Proof.
  split; [|apply size_list_to_set].
  induction l as [|x l IH]; intros Hsz; [constructor|].
  rewrite list_to_set_cons, length_cons in Hsz.
  pose proof (size_list_to_set_le l) as Hle.
  destruct (decide (x ∈ (list_to_set l : gset LaneID))) as [Hin|Hin].
  - assert ({[x]} ∪ list_to_set l = (list_to_set l : gset LaneID)) as Heq
      by set_solver. rewrite Heq in Hsz. lia.
  - rewrite size_union in Hsz by set_solver. rewrite size_singleton in Hsz.
    constructor; [by rewrite elem_of_list_to_set in Hin|].
    apply IH. lia.
Qed.

Lemma NoDup_fmap_inj_on {A B} (f : A → B) (l : list A) :
  NoDup l →
  (NoDup (f <$> l) ↔ ∀ x y, x ∈ l → y ∈ l → f x = f y → x = y).
Proof.
  intros Hl. split; [|intros Hinj; by apply NoDup_fmap_2_strong].
  induction l as [|a l IH]; intros Hnd x y Hx Hy Hxy.
  - by apply elem_of_nil in Hx.
  - rewrite fmap_cons in Hnd. apply NoDup_cons in Hnd as [Hna Hnd].
    apply NoDup_cons in Hl as [Ha Hl].
    apply elem_of_cons in Hx as [->|Hx]; apply elem_of_cons in Hy as [->|Hy].
    + done.
    + exfalso. apply Hna. rewrite Hxy. by apply list_elem_of_fmap_2.
    + exfalso. apply Hna. rewrite <- Hxy. by apply list_elem_of_fmap_2.
    + by apply IH.
Qed.

Lemma elem_of_keys (m : gmap string N) (k : string) :
  k ∈ (map_to_list m).*1 ↔ is_Some (m !! k).
Proof.
  rewrite list_elem_of_fmap. split.
  - intros [[k' v] [-> Hkv]]. apply elem_of_map_to_list in Hkv. by exists v.
  - intros [v Hv]. exists (k, v). split; [done|]. by apply elem_of_map_to_list.
Qed.

(** The size comparison at the end of [validate] decides invariant 4. *)
Lemma lanesSet_size_inv4 (info : LaneData) :
  size (lanes info) = size (lanesSet (lanes info)) ↔ inv4 info.
Proof.
  rewrite lanesSet_keys.
  rewrite <- (length_map_to_list (lanes info)).
  rewrite <- (length_fmap fst (map_to_list (lanes info))).
  rewrite <- (length_fmap to_LaneID ((map_to_list (lanes info)).*1)).
  split.
  - intros Hsz. symmetry in Hsz. apply size_list_to_set_NoDup in Hsz.
    pose proof (proj1 (NoDup_fmap_inj_on to_LaneID _
                         (NoDup_fst_map_to_list (lanes info))) Hsz) as Hinj.
    intros n1 n2 H1 H2. apply Hinj; by apply elem_of_keys.
  - intros Hinv. symmetry. apply size_list_to_set_NoDup.
    apply (NoDup_fmap_inj_on to_LaneID); [apply NoDup_fst_map_to_list|].
    intros x y Hx Hy. apply Hinv; by apply elem_of_keys.
Qed.

Lemma inv4b_spec (info : LaneData) : inv4b info = true ↔ inv4 info.
Proof.
  unfold inv4b. rewrite bool_decide_eq_true.
  rewrite (NoDup_fmap_inj_on to_LaneID) by apply NoDup_fst_map_to_list.
  split; intros Hi x y Hx Hy; apply Hi; by apply elem_of_keys.
Qed.

Lemma inv1_iff_inv2 (info : LaneData) : inv1 info ↔ inv2 info.
Proof.
  unfold inv1, inv2.
  destruct (Nat.eqb_spec (size (lanes info)) 0);
    destruct (String.eqb_spec (defaultLane info) EmptyString); naive_solver.
Qed.

Lemma inv4_no_lanes (info : LaneData) : size (lanes info) = 0 → inv4 info.
Proof.
  intros Hz%map_size_empty_iff n1 n2 [x Hx]. rewrite Hz in Hx.
  by rewrite lookup_empty in Hx.
Qed.

(** Case analysis on everything [validate] inspects; the facts about
    invariant 4 are kept as hypotheses and [inv4] itself stays folded. *)
Ltac validate_cases info :=
  unfold validate, spec_validate, inv1b, inv2b, inv3b;
  pose proof (lanesSet_size_inv4 info) as Hsz4;
  pose proof (inv4b_spec info) as Hb4;
  pose proof (inv4_no_lanes info) as He4;
  generalize dependent (inv4 info); intros I4 Hsz4 Hb4 He4;
  destruct (Nat.eqb_spec (size (lanes info)) 0) as [Hn|Hn];
  destruct (String.eqb_spec (defaultLane info) EmptyString) as [Hd|Hd];
  destruct (lanes info !! defaultLane info) as [v|] eqn:Hlk;
  destruct (Nat.eqb_spec (size (lanes info)) (size (lanesSet (lanes info))))
    as [Hs|Hs];
  destruct (inv4b info) eqn:Hi4;
  simpl;
  try rewrite (bool_decide_eq_true_2 (is_Some (Some v))) by eauto;
  try rewrite (bool_decide_eq_false_2 (is_Some (@None N))) by
    (intros [? ?]; discriminate);
  simpl;
  unfold inv1, inv2, inv3; rewrite ?Hlk.

Lemma validate_nil_iff (info : LaneData) :
  validate info = None ↔ inv1 info ∧ inv2 info ∧ inv3 info ∧ inv4 info.
Proof. validate_cases info; naive_solver. Qed.

(** C1 (as amended).  [validate] returns exactly one of five outcomes, and
    which one is decided by the checks taken in the order of the code:
    - [nil] exactly when the four invariants all hold;
    - [ErrEmptyLanesDefaultLaneSet] exactly when invariant 1 fails (invariant
      2 is its contrapositive and fails on the same configurations);
    - [ErrBadDefaultLaneNonEmptyLaneList] exactly when lanes are configured
      and the default lane is empty (the first half of invariant 3);
    - [ErrDefaultLaneNotInList] exactly when lanes are configured and the
      default lane is non-empty but no key of them (the second half of
      invariant 3);
    - [ErrRepeatedLanes] exactly when invariants 1 to 3 hold and 4 fails.
    Every error carries the configuration it was raised for, and away from
    the third case the result is the one of the literal reading
    [spec_validate]. *)
Theorem validate_outcome_by_first_failed_check (info : LaneData) :
  (validate info = None
     ↔ inv1 info ∧ inv2 info ∧ inv3 info ∧ inv4 info)
  ∧ (validate info = Some (ErrEmptyLanesDefaultLaneSet info)
     ↔ ¬ inv1 info)
  ∧ (¬ inv1 info ↔ ¬ inv2 info)
  ∧ (validate info = Some (ErrBadDefaultLaneNonEmptyLaneList info)
     ↔ size (lanes info) ≠ 0 ∧ defaultLane info = EmptyString)
  ∧ (validate info = Some (ErrDefaultLaneNotInList info)
     ↔ size (lanes info) ≠ 0 ∧ defaultLane info ≠ EmptyString
       ∧ lanes info !! defaultLane info = None)
  ∧ (validate info = Some (ErrRepeatedLanes info)
     ↔ inv1 info ∧ inv2 info ∧ inv3 info ∧ ¬ inv4 info)
  ∧ (∀ e, validate info = Some e →
       e = ErrEmptyLanesDefaultLaneSet info
       ∨ e = ErrBadDefaultLaneNonEmptyLaneList info
       ∨ e = ErrDefaultLaneNotInList info
       ∨ e = ErrRepeatedLanes info)
  ∧ (¬ (size (lanes info) ≠ 0 ∧ defaultLane info = EmptyString) →
       validate info = spec_validate info).
Proof.
  split; [apply validate_nil_iff|].
  split; [validate_cases info; naive_solver|].
  split; [by rewrite inv1_iff_inv2|].
  split; [validate_cases info; naive_solver|].
  split; [validate_cases info; naive_solver|].
  split; [validate_cases info; naive_solver|].
  split; [validate_cases info; naive_solver|].
  validate_cases info; naive_solver.
Qed.

(** C8.  [BuildLanesInfo] hands a valid configuration back unchanged and
    without error, and answers an invalid one with no [LaneData] and the
    error of [validate]. *)
Theorem BuildLanesInfo_valid_unchanged_else_error
    (laneList : gmap string N) (defLane : string) :
  let info := {| lanes := laneList; defaultLane := defLane |} in
  (inv1 info ∧ inv2 info ∧ inv3 info ∧ inv4 info →
     ∃ d, BuildLanesInfo laneList defLane = (Some d, None)
          ∧ lanes d = laneList ∧ defaultLane d = defLane)
  ∧ (¬ (inv1 info ∧ inv2 info ∧ inv3 info ∧ inv4 info) →
     ∃ e, validate info = Some e
          ∧ BuildLanesInfo laneList defLane = (None, Some e)).
Proof.
  intros info. unfold BuildLanesInfo. fold info.
  pose proof (validate_nil_iff info) as Hv.
  destruct (validate info) as [e|]; split.
  - intros Hall. apply Hv in Hall. discriminate.
  - intros _. by exists e.
  - intros _. by exists info.
  - intros Hnot. exfalso. apply Hnot. by apply Hv.
Qed.

Lemma elem_of_lanesSet (m : gmap string N) (x : LaneID) :
  x ∈ lanesSet m ↔ ∃ k, is_Some (m !! k) ∧ to_LaneID k = x.
Proof.
  rewrite lanesSet_keys, elem_of_list_to_set, list_elem_of_fmap.
  split.
  - intros (k & -> & Hk). exists k. by rewrite <- elem_of_keys.
  - intros (k & Hk & <-). exists k. by rewrite elem_of_keys.
Qed.

(** X1.  [validate] never reads the numeric values of the lanes: changing
    them by any function leaves its verdict as it is. *)
Theorem validate_ignores_lane_values (f : N → N) (info : LaneData) :
  let info' := {| lanes := f <$> lanes info;
                  defaultLane := defaultLane info |} in
  (validate info' = None ↔ validate info = None)
  ∧ (validate info' = Some (ErrRepeatedLanes info')
     ↔ validate info = Some (ErrRepeatedLanes info)).
Proof.
  intros info'.
  assert (lanesSet (lanes info') = lanesSet (lanes info)) as Hset.
  { apply set_eq. intros x. rewrite !elem_of_lanesSet. subst info'. simpl.
    split; intros (k & Hk & <-); exists k; split; try done.
    - rewrite lookup_fmap in Hk. by apply fmap_is_Some in Hk.
    - rewrite lookup_fmap. by apply fmap_is_Some. }
  unfold validate. rewrite Hset. subst info'. simpl.
  rewrite map_size_fmap, lookup_fmap.
  destruct (size (lanes info) =? 0)%nat;
    destruct (String.eqb (defaultLane info) EmptyString); simpl;
    try (split; split; intros; (done || discriminate)).
  destruct (lanes info !! defaultLane info); simpl;
    [|split; split; intros; discriminate].
  destruct (negb _); split; split; intros; (done || discriminate).
Qed.

End lane_validator.

(** C1 (as stated) fails.  With one lane and no default lane, invariants 1
    and 2 hold and invariant 3 is the first one violated, yet [validate]
    answers with the second error kind, not the third: it is not the
    validator that pairs the four invariants with the four error kinds in
    order. *)
Lemma validate_second_error_is_not_invariant_2 :
  inv1 cfg_lanes_without_default
  ∧ inv2 cfg_lanes_without_default
  ∧ ¬ inv3 cfg_lanes_without_default
  ∧ validate cfg_lanes_without_default
    = Some (ErrBadDefaultLaneNonEmptyLaneList cfg_lanes_without_default)
  ∧ spec_validate cfg_lanes_without_default
    = Some (ErrDefaultLaneNotInList cfg_lanes_without_default)
  ∧ validate cfg_lanes_without_default
    ≠ spec_validate cfg_lanes_without_default.
Proof.
  assert (size (lanes cfg_lanes_without_default) ≠ 0) as Hsz
    by (vm_compute; discriminate).
  split; [intros Hz; by destruct Hsz|].
  split; [intros Hne; by destruct Hne|].
  split.
  { intros Hi3. destruct (Hi3 Hsz) as [Hne _]. by apply Hne. }
  split; [vm_compute; reflexivity|].
  split; [vm_compute; reflexivity|].
  vm_compute. discriminate.
Qed.

(** The characterisation at a valid configuration with two lanes. *)
Lemma validate_outcome_witness :
  validate cfg_two_lanes = None
  ↔ inv1 cfg_two_lanes ∧ inv2 cfg_two_lanes ∧ inv3 cfg_two_lanes
    ∧ inv4 cfg_two_lanes.
Proof.
  exact (proj1 (validate_outcome_by_first_failed_check cfg_two_lanes)).
Defined.

(** C7 at its failing input: a single lane of numeric value 0 that is also
    the default lane is accepted, by [validate] and by [BuildLanesInfo]. *)
Lemma validate_accepts_default_lane_of_value_0 :
  defaultLaneValue cfg_default_priority_zero = Some 0%N
  ∧ size (lanes cfg_default_priority_zero) ≠ 0
  ∧ validate cfg_default_priority_zero = None
  ∧ BuildLanesInfo (lanes cfg_default_priority_zero)
                   (defaultLane cfg_default_priority_zero)
    = (Some cfg_default_priority_zero, None).
Proof.
  split; [vm_compute; reflexivity|].
  split; [vm_compute; discriminate|].
  split; vm_compute; reflexivity.
Qed.

(** A valid configuration with two lanes comes back unchanged. *)
Lemma BuildLanesInfo_witness :
  ∃ d, BuildLanesInfo (lanes cfg_two_lanes) (defaultLane cfg_two_lanes)
       = (Some d, None)
       ∧ lanes d = lanes cfg_two_lanes
       ∧ defaultLane d = defaultLane cfg_two_lanes.
Proof.
  apply (BuildLanesInfo_valid_unchanged_else_error
           (lanes cfg_two_lanes) (defaultLane cfg_two_lanes)).
  apply (validate_nil_iff cfg_two_lanes). vm_compute. reflexivity.
Defined.

(** X2.  Read with [types.LaneID] a string type, the only reading under
    which the conversion of a key compiles, the converted keys of a map are
    as distinct as the keys, and [validate] never answers
    [ErrRepeatedLanes]. *)
Theorem validate_string_lanes_never_repeated (info info' : LaneData) :
  validate (H := string_LaneID) info ≠ Some (ErrRepeatedLanes info').
Proof.
  assert (inv4 (H := string_LaneID) info) as Hinv by (intros n1 n2 _ _; done).
  apply (lanesSet_size_inv4 (H := string_LaneID)) in Hinv.
  unfold validate. rewrite <- Hinv, Nat.eqb_refl.
  destruct (size (lanes info) =? 0)%nat;
    destruct (String.eqb (defaultLane info) EmptyString); simpl;
    try discriminate.
  destruct (lanes info !! defaultLane info); discriminate.
Qed.

(* --------------------------------------------------------------------- *)
(** ** The sender map                                                     *)
(* --------------------------------------------------------------------- *)

Section sender_map.
  Context `{Collaborators}.
  Implicit Types (memR : Reactor) (txKey key : TxKey) (p id : N).

Lemma isSender_no_entry memR key p :
  txSenders memR !! key = None → isSender memR key p = false.
Proof. unfold isSender. by intros ->. Qed.

Lemma addSender_fresh memR key id :
  (addSender memR key id).2 = true ↔ txSenders memR !! key = None.
Proof. unfold addSender. destruct (txSenders memR !! key); naive_solver. Qed.

Lemma addSender_isSender memR key id :
  isSender (addSender memR key id).1 key id = true.
Proof.
  unfold addSender, isSender.
  destruct (txSenders memR !! key) as [sendersSet|]; simpl;
    rewrite lookup_insert_eq.
  - by rewrite lookup_insert_eq.
  - by rewrite lookup_singleton_eq.
Qed.

Lemma addSender_other_key memR key id key' p :
  key' ≠ key →
  isSender (addSender memR key id).1 key' p = isSender memR key' p.
Proof.
  intros Hne. unfold addSender, isSender.
  destruct (txSenders memR !! key); simpl; by rewrite lookup_insert_ne.
Qed.

(** Adding a sender never removes one. *)
Lemma addSender_keeps memR key id key' p :
  isSender memR key' p = true →
  isSender (addSender memR key id).1 key' p = true.
Proof.
  destruct (decide (key' = key)) as [->|Hne];
    [|by rewrite addSender_other_key].
  unfold addSender, isSender.
  destruct (txSenders memR !! key) as [sendersSet|]; [|done]. simpl.
  rewrite lookup_insert_eq.
  destruct (decide (p = id)) as [->|Hp].
  - by rewrite lookup_insert_eq.
  - by rewrite lookup_insert_ne.
Qed.

Lemma removeSenders_lookup memR key :
  txSenders (removeSenders memR key) !! key = None.
Proof. apply lookup_delete_eq. Qed.

Lemma removeSenders_isSender memR key p :
  isSender (removeSenders memR key) key p = false.
Proof. apply isSender_no_entry, removeSenders_lookup. Qed.

Lemma removeSenders_other_key memR key key' p :
  key' ≠ key →
  isSender (removeSenders memR key) key' p = isSender memR key' p.
Proof.
  intros Hne. unfold removeSenders, isSender. simpl.
  by rewrite lookup_delete_ne.
Qed.

Lemma removeSenders_idempotent memR key :
  removeSenders (removeSenders memR key) key = removeSenders memR key.
Proof.
  unfold removeSenders. simpl. f_equal. apply delete_delete_eq.
Qed.

(** P stays recorded as a sender of a key through every operation on the
    sender map except [removeSenders] of that key. *)
Lemma isSender_stable (ops : list SenderOp) memR key p :
  isSender memR key p = true →
  OpRemoveSenders key ∉ ops →
  isSender (apply_ops ops memR) key p = true.
Proof.
  unfold apply_ops. revert memR.
  induction ops as [|op ops IH]; intros memR Hrec Hnot; [done|].
  simpl. apply IH.
  - destruct op as [k id|k]; simpl.
    + by apply addSender_keeps.
    + rewrite removeSenders_other_key; [done|].
      intros ->. apply Hnot. left.
  - intros Hin. apply Hnot. by right.
Qed.

(** C10.  The sender map operations: [addSender] reports [true] exactly for
    a key without entry, records the sender and leaves the other keys as
    they were; [removeSenders] leaves no sender of the key and is
    idempotent; nobody is a sender of a key without entry. *)
Theorem sender_map_operations memR key id :
  ((addSender memR key id).2 = true ↔ txSenders memR !! key = None)
  ∧ isSender (addSender memR key id).1 key id = true
  ∧ (∀ key' p, key' ≠ key →
       isSender (addSender memR key id).1 key' p = isSender memR key' p)
  ∧ (∀ p, isSender (removeSenders memR key) key p = false)
  ∧ removeSenders (removeSenders memR key) key = removeSenders memR key
  ∧ (∀ p, txSenders memR !! key = None → isSender memR key p = false).
Proof.
  split; [apply addSender_fresh|].
  split; [apply addSender_isSender|].
  split; [intros key' p; apply addSender_other_key|].
  split; [intros p; apply removeSenders_isSender|].
  split; [apply removeSenders_idempotent|].
  intros p. apply isSender_no_entry.
Qed.

(** [updateSendersRoutine] only ever deletes entries. *)
Lemma updateSendersRoutine_no_entry (deliveries : list SendersSelect) memR key :
  txSenders memR !! key = None →
  txSenders (updateSendersRoutine deliveries memR) !! key = None.
Proof.
  revert memR. induction deliveries as [|[k|] rest IH]; intros memR Hk;
    simpl; [done| |done].
  apply IH. unfold removeSenders. simpl.
  destruct (decide (k = key)) as [->|Hne].
  - apply lookup_delete_eq.
  - by rewrite lookup_delete_ne.
Qed.

(** C6.  Whatever was delivered before and is delivered after, once the
    routine has received a key from the removal channel (before any quit)
    the sender map has no entry for it, and no peer is a sender of it. *)
Theorem updateSendersRoutine_deletes_entry
    (before after : list SendersSelect) memR key :
  RecvQuit ∉ before →
  let memR' :=
    updateSendersRoutine (before ++ RecvTxsRemoved key :: after) memR in
  txSenders memR' !! key = None ∧ ∀ p, isSender memR' key p = false.
Proof.
  intros Hq memR'.
  assert (txSenders memR' !! key = None) as Hnone.
  { subst memR'. revert memR.
    induction before as [|[k|] rest IH]; intros memR; simpl.
    - apply updateSendersRoutine_no_entry, removeSenders_lookup.
    - apply IH. intros Hin. apply Hq. by right.
    - exfalso. apply Hq. left. }
  split; [done|]. intros p. by apply isSender_no_entry.
Qed.

End sender_map.

(* --------------------------------------------------------------------- *)
(** ** [Receive]                                                          *)
(* --------------------------------------------------------------------- *)

Section receive.
  Context `{Collaborators}.
  Implicit Types (memR : Reactor) (src : Peer) (t : Tx) (trace : list Event).

(** One turn of the loop over the batch, unfolded. *)
Lemma Receive_range_cons src t (rest : list Tx) memR :
  let id := GetForPeer src in
  let memR1 := (addSender memR (Key t) id).1 in
  let res := CheckTx t (mempool memR1) in
  let memR2 := {| mempool := res.1; txSenders := txSenders memR1 |} in
  Receive_range src (t :: rest) memR
  = (tt, (Receive_range src rest memR2).1.2,
     CallAddSender (Key t) id :: CallCheckTx t memR1 res.2
       :: admission_log res.2 ++ (Receive_range src rest memR2).2).
Proof.
  intros id memR1 res memR2. subst id memR1 res memR2.
  simpl. unfold act_bind, do_addSender, do_CheckTx.
  destruct (addSender memR (Key t) (GetForPeer src)) as [memR1 fresh]. simpl.
  destruct (CheckTx t (mempool memR1)) as [mp err]. simpl.
  unfold admission_log, admission_error_log, emit, act_ret.
  destruct err as [e|]; [destruct (is_ErrTxInCache e)|]; simpl;
    by destruct (Receive_range src rest _) as [[[] ?] ?].
Qed.

(** [CheckTx] leaves the sender map alone, and the loop only adds to it. *)
Lemma Receive_range_keeps_senders src (protoTxs : list Tx) memR key p :
  isSender memR key p = true →
  isSender (Receive_range src protoTxs memR).1.2 key p = true.
Proof.
  revert memR. induction protoTxs as [|t rest IH]; intros memR Hrec; [done|].
  rewrite Receive_range_cons. simpl. apply IH.
  unfold isSender. simpl.
  by apply (addSender_keeps memR (Key t) (GetForPeer src)) in Hrec.
Qed.

Lemma Receive_range_calls src (protoTxs : list Tx) memR :
  omap call_of (Receive_range src protoTxs memR).2
  = flat_map (λ t, [AddSenderCall (Key t) (GetForPeer src); CheckTxCall t])
             protoTxs.
Proof.
  revert memR. induction protoTxs as [|t rest IH]; intros memR; [done|].
  rewrite Receive_range_cons. simpl. rewrite omap_app, IH.
  unfold admission_log, admission_error_log.
  by destruct (CheckTx _ _).2 as [e|]; [destruct (is_ErrTxInCache e)|].
Qed.

Lemma Receive_range_checked src (protoTxs : list Tx) memR :
  omap checked_tx (Receive_range src protoTxs memR).2 = protoTxs.
Proof.
  revert memR. induction protoTxs as [|t rest IH]; intros memR; [done|].
  rewrite Receive_range_cons. simpl. rewrite omap_app, IH.
  unfold admission_log, admission_error_log.
  by destruct (CheckTx _ _).2 as [e|]; [destruct (is_ErrTxInCache e)|].
Qed.

Lemma admission_log_no_stop (err : option CheckTxError) :
  Forall (λ ev, is_StopPeerForError ev = false) (admission_log err).
Proof.
  unfold admission_log, admission_error_log.
  destruct err as [e|]; [destruct (is_ErrTxInCache e)|];
    repeat constructor.
Qed.

Lemma Receive_range_no_stop src (protoTxs : list Tx) memR :
  Forall (λ ev, is_StopPeerForError ev = false)
         (Receive_range src protoTxs memR).2.
Proof.
  revert memR. induction protoTxs as [|t rest IH]; intros memR;
    [constructor|].
  rewrite Receive_range_cons. simpl.
  do 2 (constructor; [done|]).
  apply Forall_app. split; [apply admission_log_no_stop|apply IH].
Qed.

Lemma admission_log_not_CheckTx (err : option CheckTxError) ev :
  ev ∈ admission_log err → checked_tx ev = None.
Proof.
  unfold admission_log, admission_error_log.
  destruct err as [e|]; [destruct (is_ErrTxInCache e)|];
    intros Hin; repeat (apply elem_of_cons in Hin as [->|Hin]; [done|]);
    by apply elem_of_nil in Hin.
Qed.

Lemma Receive_range_sender_at_call src (protoTxs : list Tx) memR t r err :
  CallCheckTx t r err ∈ (Receive_range src protoTxs memR).2 →
  isSender r (Key t) (GetForPeer src) = true.
Proof.
  revert memR. induction protoTxs as [|t0 rest IH]; intros memR Hin.
  - by apply elem_of_nil in Hin.
  - rewrite Receive_range_cons in Hin. simpl in Hin.
    apply elem_of_cons in Hin as [Heq|Hin]; [discriminate|].
    apply elem_of_cons in Hin as [Heq|Hin].
    + injection Heq as -> -> ->. apply addSender_isSender.
    + apply elem_of_app in Hin as [Hin|Hin]; [|by eapply IH].
      by apply admission_log_not_CheckTx in Hin.
Qed.

Lemma Receive_range_recorded src (protoTxs : list Tx) memR t :
  t ∈ protoTxs →
  isSender (Receive_range src protoTxs memR).1.2 (Key t) (GetForPeer src)
  = true.
Proof.
  revert memR. induction protoTxs as [|t0 rest IH]; intros memR Hin.
  - by apply elem_of_nil in Hin.
  - rewrite Receive_range_cons. simpl.
    apply elem_of_cons in Hin as [->|Hin]; [|by apply IH].
    apply Receive_range_keeps_senders.
    unfold isSender. simpl. apply (addSender_isSender memR).
Qed.

(** An admission error is followed at once by its log line. *)
Lemma Receive_range_error_logged src (protoTxs : list Tx) memR i t r e :
  (Receive_range src protoTxs memR).2 !! i = Some (CallCheckTx t r (Some e)) →
  (Receive_range src protoTxs memR).2 !! S i = Some (admission_error_log e).
Proof.
  revert memR i. induction protoTxs as [|t0 rest IH]; intros memR i Hi;
    [done|].
  rewrite Receive_range_cons in Hi |- *. simpl in Hi |- *.
  destruct i as [|[|i]]; [done| |].
  - simpl in Hi. injection Hi as -> -> Herr. simpl. by rewrite Herr.
  - simpl in Hi. simpl.
    set (res := CheckTx t0 _) in *.
    destruct (res.2) as [e0|]; simpl in *.
    + destruct i as [|i]; simpl in *.
      * unfold admission_error_log in Hi.
        by destruct (is_ErrTxInCache e0).
      * by apply IH.
    + by apply IH.
Qed.

(** C5.  For a batch of transactions, [Receive] calls, for each payload in
    turn, [addSender] with the payload's key and the source's id and then
    [CheckTx] with the payload; the reactor state in which [CheckTx] is
    called already records the source as a sender; and when [Receive] is
    done every payload's key has an entry recording the source. *)
Theorem Receive_records_sender_before_CheckTx
    (e : Envelope) (protoTxs : list Tx) memR :
  Message_ e = MsgTxs protoTxs →
  let id := GetForPeer (Src e) in
  let trace := (Receive e memR).2 in
  let memR' := (Receive e memR).1.2 in
  omap call_of trace
  = flat_map (λ t, [AddSenderCall (Key t) id; CheckTxCall t]) protoTxs
  ∧ (∀ t r err, CallCheckTx t r err ∈ trace → isSender r (Key t) id = true)
  ∧ (∀ t, t ∈ protoTxs →
       is_Some (txSenders memR' !! Key t) ∧ isSender memR' (Key t) id = true).
Proof.
  intros Hmsg id trace memR'. subst id trace memR'.
  unfold Receive. rewrite Hmsg. unfold act_bind, emit.
  destruct protoTxs as [|t0 rest].
  - simpl. split; [done|]. split.
    + intros t r err Hin.
      repeat (apply elem_of_cons in Hin as [Heq|Hin]; [discriminate|]).
      by apply elem_of_nil in Hin.
    + intros t Hin. by apply elem_of_nil in Hin.
  - change (length (t0 :: rest) =? 0)%nat with false. cbv iota.
    destruct (Receive_range (Src e) (t0 :: rest) memR) as [[[] memR'] trace]
      eqn:Hrange.
    simpl.
    pose proof (Receive_range_calls (Src e) (t0 :: rest) memR) as Hcalls.
    pose proof (Receive_range_sender_at_call (Src e) (t0 :: rest) memR)
      as Hat.
    pose proof (Receive_range_recorded (Src e) (t0 :: rest) memR) as Hrec.
    rewrite Hrange in Hcalls, Hat, Hrec. simpl in Hcalls, Hat, Hrec.
    split; [done|]. split.
    + intros t r err Hin.
      apply elem_of_cons in Hin as [Heq|Hin]; [discriminate|]. by eapply Hat.
    + intros t Hin. specialize (Hrec t Hin). split; [|done].
      unfold isSender in Hrec.
      destruct (txSenders memR' !! Key t); [by eexists|discriminate].
Qed.

(** C4.  [Receive] on a batch without transactions logs an error and does
    nothing else; on a message of another kind it logs and stops the peer
    for error; on a batch with transactions it submits every payload to
    [CheckTx], in order and whatever the earlier submissions returned,
    follows each admission error by its log line, and never stops the
    peer. *)
Theorem Receive_protocol_and_admission_errors (e : Envelope) memR :
  (Message_ e = MsgTxs [] →
     Receive e memR
     = (tt, memR,
        [LogDebug "Receive"; LogError "received empty txs from peer"]))
  ∧ (∀ name, Message_ e = MsgOther name →
       Receive e memR
       = (tt, memR,
          [LogDebug "Receive"; LogError "unknown message type";
           StopPeerForError (Src e)]))
  ∧ (∀ protoTxs, Message_ e = MsgTxs protoTxs →
       let trace := (Receive e memR).2 in
       omap checked_tx trace = protoTxs
       ∧ Forall (λ ev, is_StopPeerForError ev = false) trace
       ∧ (∀ i t r err,
            trace !! i = Some (CallCheckTx t r (Some err)) →
            trace !! S i = Some (admission_error_log err))).
Proof.
  split; [|split].
  - intros Hmsg. unfold Receive. by rewrite Hmsg.
  - intros name Hmsg. unfold Receive. by rewrite Hmsg.
  - intros protoTxs Hmsg trace. subst trace.
    unfold Receive. rewrite Hmsg. unfold act_bind, emit.
    destruct protoTxs as [|t0 rest].
    + simpl. split; [done|]. split; [by repeat constructor|].
      intros [|[|i]] t r err Hi; discriminate.
    + change (length (t0 :: rest) =? 0)%nat with false. cbv iota.
      pose proof (Receive_range_checked (Src e) (t0 :: rest) memR) as Hch.
      pose proof (Receive_range_no_stop (Src e) (t0 :: rest) memR) as Hns.
      pose proof (Receive_range_error_logged (Src e) (t0 :: rest) memR)
        as Hlog.
      destruct (Receive_range (Src e) (t0 :: rest) memR)
        as [[[] memR'] trace].
      simpl in *. split; [done|]. split; [by constructor|].
      intros [|i] t r err Hi; [discriminate|]. simpl in *. by eapply Hlog.
Qed.

End receive.

(** Peer 7 sends a batch of two transactions to a fresh reactor. *)
Lemma Receive_records_sender_witness :
  omap call_of (Receive (envelope_from 7 (MsgTxs [tx_T; tx_U])) fresh_reactor).2
  = [AddSenderCall tx_T 7%N; CheckTxCall tx_T;
     AddSenderCall tx_U 7%N; CheckTxCall tx_U].
Proof.
  exact (proj1 (Receive_records_sender_before_CheckTx
                  (envelope_from 7 (MsgTxs [tx_T; tx_U])) [tx_T; tx_U]
                  fresh_reactor eq_refl)).
Defined.

(** A batch whose second payload is a duplicate: all three payloads are
    submitted and the peer is not stopped. *)
Lemma Receive_errors_witness :
  let trace :=
    (Receive (envelope_from 7 (MsgTxs [tx_T; tx_T; tx_U])) fresh_reactor).2 in
  omap checked_tx trace = [tx_T; tx_T; tx_U]
  ∧ Forall (λ ev, is_StopPeerForError ev = false) trace.
Proof.
  pose proof (proj2 (proj2 (Receive_protocol_and_admission_errors
                (envelope_from 7 (MsgTxs [tx_T; tx_T; tx_U])) fresh_reactor))
                [tx_T; tx_T; tx_U] eq_refl) as (Hch & Hns & _).
  exact (conj Hch Hns).
Defined.

(* --------------------------------------------------------------------- *)
(** ** [broadcastTxRoutine]                                               *)
(* --------------------------------------------------------------------- *)

Section broadcast.
  Context `{Collaborators}.
  Implicit Types (o : Observation) (next : option CElement) (e : CElement)
    (peerID : N) (t : Tx).

Lemma wrap_int64_id (z : Z) : in_int64 z → wrap_int64 z = z.
Proof.
  unfold in_int64, wrap_int64. intros Hz.
  rewrite Z.mod_small by lia. lia.
Qed.

Lemma sub_int64_exact (a : Z) :
  (- 2 ^ 63 < a < 2 ^ 63)%Z → sub_int64 a 1 = (a - 1)%Z.
Proof.
  intros Ha. unfold sub_int64. apply wrap_int64_id. unfold in_int64. lia.
Qed.

(** The only traces of [advance] and of [send_decision]. *)
Lemma advance_trace o e : (advance o e).2 = [].
Proof. unfold advance. by destruct (select_NextWaitChan o). Qed.

Lemma send_decision_cases peerID o e :
  let t := tx (Value e) in
  (isSender (at_isSender o) (Key t) peerID = true
     ∧ send_decision peerID o e = advance o e)
  ∨ (isSender (at_isSender o) (Key t) peerID = false ∧ peer_Send o = false
     ∧ send_decision peerID o e
       = (LoopContinue (Some e),
          [Send t false; Sleep PeerCatchupSleepIntervalMS]))
  ∨ (isSender (at_isSender o) (Key t) peerID = false ∧ peer_Send o = true
     ∧ send_decision peerID o e = ((advance o e).1, [Send t true])).
Proof.
  intros t. subst t. unfold send_decision.
  destruct (isSender _ _ _); simpl; [by left|right].
  destruct (peer_Send o); simpl; [right|by left].
  pose proof (advance_trace o e) as Htr.
  destruct (advance o e) as [c evs]. simpl in *. by subst evs.
Qed.

Lemma send_decision_not_only_sleep peerID o e c ms :
  send_decision peerID o e ≠ (c, [Sleep ms]).
Proof.
  pose proof (advance_trace o e) as Htr.
  destruct (send_decision_cases peerID o e)
    as [[_ ->]|[(_ & _ & ->)|(_ & _ & ->)]]; [|congruence..].
  destruct (advance o e) as [c' evs]. simpl in Htr. subst evs. congruence.
Qed.

(** A turn that gets as far as the cursor's element. *)
Lemma broadcast_turn_with_cursor peerID o next e :
  memR_IsRunning o = true → peer_IsRunning o = true →
  resolve_cursor o next = inl e →
  broadcast_turn peerID o next = with_cursor peerID o e.
Proof. unfold broadcast_turn. by intros -> -> ->. Qed.

(** C3.  In a turn of the loop that has a transaction under the cursor and
    the peer's height at hand, the loop sleeps and goes round with the
    cursor where it is exactly when [peerHeight < txHeight - 1] (computed in
    [int64]; for a [txHeight] other than the least [int64] that is the
    comparison of the integers); otherwise it goes on to the send
    decision. *)
Theorem catch_up_throttle peerID o next e (peerHeight : Z) :
  memR_IsRunning o = true → peer_IsRunning o = true →
  resolve_cursor o next = inl e →
  peer_state o = Some peerHeight →
  let txHeight := Height (Value e) in
  let throttled :=
    broadcast_turn peerID o next
    = (LoopContinue (Some e), [Sleep PeerCatchupSleepIntervalMS]) in
  (throttled ↔ (peerHeight < sub_int64 txHeight 1)%Z)
  ∧ ((- 2 ^ 63 < txHeight < 2 ^ 63)%Z →
       (throttled ↔ (peerHeight < txHeight - 1)%Z))
  ∧ (¬ (peerHeight < sub_int64 txHeight 1)%Z →
       broadcast_turn peerID o next = send_decision peerID o e).
Proof.
  intros Hrun Hprun Hcur Hstate txHeight throttled.
  assert (throttled ↔ (peerHeight < sub_int64 txHeight 1)%Z) as Hiff.
  { subst throttled. rewrite (broadcast_turn_with_cursor _ _ _ e) by done.
    unfold with_cursor, peer_lags. rewrite Hstate. fold txHeight.
    destruct (Z.ltb_spec peerHeight (sub_int64 txHeight 1)) as [Hlt|Hge].
    - done.
    - split; [|lia]. intros Heq.
      by apply send_decision_not_only_sleep in Heq. }
  split; [done|]. split.
  - intros Hrange. by rewrite Hiff, sub_int64_exact.
  - intros Hnot. rewrite (broadcast_turn_with_cursor _ _ _ e) by done.
    unfold with_cursor, peer_lags. rewrite Hstate. fold txHeight.
    destruct (Z.ltb_spec peerHeight (sub_int64 txHeight 1)); [lia|done].
Qed.

(** Where the events of a turn come from. *)
Lemma broadcast_turn_send peerID o next t success :
  Send t success ∈ (broadcast_turn peerID o next).2 →
  ∃ e, resolve_cursor o next = inl e ∧ t = tx (Value e)
       ∧ isSender (at_isSender o) (Key t) peerID = false
       ∧ success = peer_Send o
       ∧ broadcast_turn peerID o next = send_decision peerID o e.
Proof.
  unfold broadcast_turn.
  destruct (negb (memR_IsRunning o) || negb (peer_IsRunning o));
    [intros Hin; by apply elem_of_nil in Hin|].
  destruct (resolve_cursor o next) as [e|c];
    [|intros Hin; by apply elem_of_nil in Hin].
  unfold with_cursor.
  destruct (peer_state o) as [peerHeight|].
  2:{ intros Hin. apply elem_of_cons in Hin as [Heq|Hin]; [discriminate|].
      by apply elem_of_nil in Hin. }
  destruct (peer_lags peerHeight (Value e)).
  { intros Hin. apply elem_of_cons in Hin as [Heq|Hin]; [discriminate|].
    by apply elem_of_nil in Hin. }
  intros Hin. exists e. split; [done|].
  pose proof (advance_trace o e) as Htr.
  destruct (send_decision_cases peerID o e)
    as [[_ Heq]|[(Hns & Hsend & Heq)|(Hns & Hsend & Heq)]];
    rewrite Heq in Hin; simpl in Hin.
  - rewrite Htr in Hin. by apply elem_of_nil in Hin.
  - apply elem_of_cons in Hin as [Hev|Hin].
    + injection Hev as -> ->. by rewrite Hsend.
    + apply elem_of_cons in Hin as [Hev|Hin]; [discriminate|].
      by apply elem_of_nil in Hin.
  - apply elem_of_cons in Hin as [Hev|Hin].
    + injection Hev as -> ->. by rewrite Hsend.
    + by apply elem_of_nil in Hin.
Qed.

(** C9.  A turn of the loop in which the send fails ends in a sleep and
    goes round with the cursor on the same element: the failed send and the
    sleep are all the turn does, the rest of the run takes up from that
    element, and the next turn has it under the cursor again. *)
Theorem send_failure_retries_same_element peerID o next t :
  Send t false ∈ (broadcast_turn peerID o next).2 →
  ∃ e, resolve_cursor o next = inl e ∧ t = tx (Value e)
       ∧ broadcast_turn peerID o next
         = (LoopContinue (Some e),
            [Send t false; Sleep PeerCatchupSleepIntervalMS])
       ∧ (∀ rest, broadcast_loop peerID (o :: rest) next
                  = [Send t false; Sleep PeerCatchupSleepIntervalMS]
                    ++ broadcast_loop peerID rest (Some e))
       ∧ (∀ o', resolve_cursor o' (Some e) = inl e).
Proof.
  intros Hin.
  destruct (broadcast_turn_send _ _ _ _ _ Hin)
    as (e & Hcur & -> & Hns & Hfail & Heq).
  exists e. split; [done|]. split; [done|].
  assert (broadcast_turn peerID o next
          = (LoopContinue (Some e),
             [Send (tx (Value e)) false; Sleep PeerCatchupSleepIntervalMS]))
    as Hturn.
  { rewrite Heq.
    destruct (send_decision_cases peerID o e)
      as [[Hs _]|[(_ & _ & ->)|(_ & Hsend & _)]]; [congruence|done|congruence]. }
  split; [done|]. split; [|done].
  intros rest. simpl. by rewrite Hturn.
Qed.

(** No turn sends a transaction to a peer recorded as its sender. *)
Lemma broadcast_turn_skips_sender peerID o next key t success :
  isSender (at_isSender o) key peerID = true →
  Send t success ∈ (broadcast_turn peerID o next).2 →
  Key t ≠ key.
Proof.
  intros Hrec Hin.
  destruct (broadcast_turn_send _ _ _ _ _ Hin) as (e & _ & _ & Hns & _).
  intros <-. congruence.
Qed.

Lemma isSender_txSenders (memR memR' : Reactor) key peerID :
  txSenders memR = txSenders memR' →
  isSender memR key peerID = isSender memR' key peerID.
Proof. unfold isSender. by intros ->. Qed.

(** C2 (as amended).  Let P be recorded as a sender of a key, and let the
    sender map that each turn of P's loop reads come from that one by
    operations other than [removeSenders] of the key (which runs only on
    the key's removal notice).  Then no turn of the loop, from whatever
    cursor, sends a transaction of that key to P. *)
Theorem no_send_to_recorded_sender
    peerID (memR0 : Reactor) (key : TxKey) (obs : list Observation) next :
  isSender memR0 key peerID = true →
  (∀ o, o ∈ obs →
     ∃ ops, (OpRemoveSenders key ∉ ops)
            ∧ txSenders (at_isSender o) = txSenders (apply_ops ops memR0)) →
  ∀ t success, Send t success ∈ broadcast_loop peerID obs next → Key t ≠ key.
Proof.
  intros Hrec Hobs. revert next.
  induction obs as [|o rest IH]; intros next t success Hin.
  - by apply elem_of_nil in Hin.
  - assert (isSender (at_isSender o) key peerID = true) as Ho.
    { destruct (Hobs o) as (ops & Hnot & Heq); [left|].
      rewrite (isSender_txSenders _ _ _ _ Heq). by apply isSender_stable. }
    assert (∀ o', o' ∈ rest →
              ∃ ops, (OpRemoveSenders key ∉ ops)
                     ∧ txSenders (at_isSender o')
                       = txSenders (apply_ops ops memR0)) as Hrest.
    { intros o' Ho'. apply Hobs. by right. }
    simpl in Hin.
    pose proof (broadcast_turn_skips_sender peerID o next key t success Ho)
      as Hturn.
    destruct (broadcast_turn peerID o next) as [[|next'] evs]; simpl in *.
    + by apply Hturn.
    + apply elem_of_app in Hin as [Hin|Hin]; [by apply Hturn|].
      by eapply (IH Hrest).
Qed.

End broadcast.

(** C2 (as stated) fails.  Peer 3 never sent T, so it is in no sender map.
    Turn 1 sends T to it with success; U, behind T, is sent in turn 2 and
    then removed while the loop waits on it, which readies the wait with no
    successor; turn 3 restarts from the front and sends T again, although T
    was in the pool at every read of every turn. *)
Lemma successful_send_repeated_after_restart :
  broadcastTxRoutine 3%nat [turn_1; turn_2; turn_3]
  = [Send tx_T true; Send tx_U true; Send tx_T true]
  ∧ Forall (λ o, elem_T ∈ lp_elems (mempool (at_TxsFront o))
                 ∧ elem_T ∈ lp_elems (mempool (at_isSender o))
                 ∧ elem_T ∈ lp_elems (mempool (at_Next o)))
           [turn_1; turn_2; turn_3]
  ∧ Next elem_T (mempool (at_Next turn_1)) = Some elem_U
  ∧ mempool (at_Next turn_2) = lp_remove elem_U (mempool (at_Next turn_1))
  ∧ Next elem_U (mempool (at_Next turn_2)) = None
  ∧ TxsFront (mempool (at_TxsFront turn_3)) = Some elem_T.
Proof.
  split; [vm_compute; reflexivity|].
  split.
  { repeat (constructor; [repeat split; vm_compute; by left|]).
    constructor. }
  repeat split; vm_compute; reflexivity.
Qed.

(** Peer 3 is recorded as a sender of T: the loop passes over T and sends
    only U. *)
Lemma no_send_to_recorded_sender_witness :
  isSender reactor_T_from_3 tx_T 3%N = true
  ∧ broadcast_loop 3%N [turn_known_sender; turn_known_sender] None
    = [Send tx_U true]
  ∧ Key tx_U ≠ tx_T.
Proof.
  split; [vm_compute; reflexivity|].
  split; [vm_compute; reflexivity|].
  apply (no_send_to_recorded_sender 3%N reactor_T_from_3 tx_T
           [turn_known_sender; turn_known_sender] None eq_refl)
    with (success := true).
  - intros o Ho. exists []. split; [apply not_elem_of_nil|].
    apply elem_of_cons in Ho as [->|Ho]; [reflexivity|].
    apply elem_of_cons in Ho as [->|Ho]; [reflexivity|].
    by apply elem_of_nil in Ho.
  - vm_compute. left.
Defined.

(** A peer at height 1 and a transaction admitted at height 5. *)
Lemma catch_up_throttle_witness :
  broadcast_turn 3%N turn_1 (Some elem_late)
  = (LoopContinue (Some elem_late), [Sleep PeerCatchupSleepIntervalMS])
  ↔ (1 < sub_int64 (Height (Value elem_late)) 1)%Z.
Proof.
  exact (proj1 (catch_up_throttle 3%N turn_1 (Some elem_late) elem_late 1%Z
                  eq_refl eq_refl eq_refl eq_refl)).
Defined.

(** A turn in which [Send] reports backpressure for T. *)
Lemma send_failure_witness :
  ∃ e, resolve_cursor turn_backpressure None = inl e ∧ tx_T = tx (Value e)
       ∧ broadcast_turn 3%N turn_backpressure None
         = (LoopContinue (Some e),
            [Send tx_T false; Sleep PeerCatchupSleepIntervalMS])
       ∧ (∀ rest, broadcast_loop 3%N (turn_backpressure :: rest) None
                  = [Send tx_T false; Sleep PeerCatchupSleepIntervalMS]
                    ++ broadcast_loop 3%N rest (Some e))
       ∧ (∀ o', resolve_cursor o' (Some e) = inl e).
Proof.
  apply (send_failure_retries_same_element 3%N turn_backpressure None tx_T).
  vm_compute. left.
Defined.

(** The removal notices of U and of T, then quit. *)
Lemma updateSendersRoutine_witness :
  let memR' :=
    updateSendersRoutine
      ([RecvTxsRemoved (Key tx_U)] ++ RecvTxsRemoved (Key tx_T) :: [RecvQuit])
      reactor_T_from_3 in
  txSenders memR' !! Key tx_T = None
  ∧ ∀ p, isSender memR' (Key tx_T) p = false.
Proof.
  apply (updateSendersRoutine_deletes_entry
           [RecvTxsRemoved (Key tx_U)] [RecvQuit] reactor_T_from_3
           (Key tx_T)).
  intros Hin. apply elem_of_cons in Hin as [Heq|Hin]; [discriminate|].
  by apply elem_of_nil in Hin.
Defined.

(** The first sender of T in an empty sender map. *)
Lemma sender_map_operations_witness :
  (addSender fresh_reactor (Key tx_T) 3%N).2 = true
  ↔ txSenders fresh_reactor !! Key tx_T = None.
Proof.
  exact (proj1 (sender_map_operations fresh_reactor (Key tx_T) 3%N)).
Defined.

(* ===================================================================== *)
(** * Part III.  Further properties of the code                           *)
(* ===================================================================== *)

(* --------------------------------------------------------------------- *)
(** ** The sender map as a set of (key, peer) pairs                       *)
(* --------------------------------------------------------------------- *)

Section sender_map_algebra.
  Context `{Collaborators}.
  Implicit Types (memR : Reactor) (key k : TxKey) (p id : N).

Lemma Reactor_eq memR memR' :
  mempool memR = mempool memR' → txSenders memR = txSenders memR' →
  memR = memR'.
Proof. destruct memR, memR'. simpl. by intros -> ->. Qed.

Lemma addSender_mempool memR key id :
  mempool (addSender memR key id).1 = mempool memR.
Proof. unfold addSender. by destruct (txSenders memR !! key). Qed.

Lemma addSender_entry memR key id k :
  txSenders (addSender memR key id).1 !! k = None
  ↔ txSenders memR !! k = None ∧ k ≠ key.
Proof.
  unfold addSender.
  destruct (decide (k = key)) as [->|Hne].
  - destruct (txSenders memR !! key); simpl; rewrite lookup_insert_eq;
      naive_solver.
  - destruct (txSenders memR !! key); simpl; rewrite lookup_insert_ne by done;
      naive_solver.
Qed.

Lemma isSender_addSender memR key id k p :
  isSender (addSender memR key id).1 k p
  = isSender memR k p || (bool_decide (k = key) && bool_decide (p = id)).
Proof.
  destruct (decide (k = key)) as [->|Hne].
  2:{ rewrite addSender_other_key by done.
      rewrite (bool_decide_eq_false_2 (k = key)) by done.
      by rewrite orb_false_r. }
  rewrite (bool_decide_eq_true_2 (key = key)) by done. simpl.
  unfold addSender, isSender.
  destruct (txSenders memR !! key) as [sendersSet|]; simpl;
    rewrite lookup_insert_eq.
  - destruct (decide (p = id)) as [->|Hp].
    + rewrite lookup_insert_eq, bool_decide_eq_true_2 by done.
      by rewrite orb_true_r.
    + rewrite lookup_insert_ne, bool_decide_eq_false_2 by done.
      by rewrite orb_false_r.
  - destruct (decide (p = id)) as [->|Hp].
    + by rewrite lookup_singleton_eq, bool_decide_eq_true_2.
    + by rewrite lookup_singleton_ne, bool_decide_eq_false_2.
Qed.

(** X3.  After [addSender(key, id)] the senders are those recorded before
    and the pair added, nothing else: no sender is lost and none appears
    for another key or another peer. *)
Theorem addSender_adds_exactly_one memR key id k p :
  isSender (addSender memR key id).1 k p = true
  ↔ isSender memR k p = true ∨ (k = key ∧ p = id).
Proof.
  rewrite isSender_addSender, orb_true_iff, andb_true_iff.
  by rewrite !bool_decide_eq_true.
Qed.

(** X4.  [removeSenders(key)] forgets the senders of that key and of no
    other: for every other key the senders are as before, and the pool is
    not touched. *)
Theorem removeSenders_frame memR key k p :
  isSender (removeSenders memR key) k p
  = (if decide (k = key) then false else isSender memR k p)
  ∧ mempool (removeSenders memR key) = mempool memR.
Proof.
  split; [|done]. destruct (decide (k = key)) as [->|Hne].
  - apply removeSenders_isSender.
  - by apply removeSenders_other_key.
Qed.

(** X5.  Two calls of [addSender] commute: the reactor they leave does not
    depend on the order in which two senders are recorded, for the same key
    or for different ones. *)
Theorem addSender_commutes memR k1 id1 k2 id2 :
  (addSender (addSender memR k1 id1).1 k2 id2).1
  = (addSender (addSender memR k2 id2).1 k1 id1).1.
Proof.
  apply Reactor_eq; [by rewrite !addSender_mempool|].
  unfold addSender.
  destruct (decide (k1 = k2)) as [->|Hne].
  - destruct (txSenders memR !! k2) as [s|]; simpl;
      rewrite !lookup_insert_eq; simpl; rewrite !insert_insert_eq; f_equal.
    + destruct (decide (id1 = id2)) as [->|Hid]; [done|].
      by apply insert_insert_ne.
    + destruct (decide (id1 = id2)) as [->|Hid]; [done|].
      rewrite <- !insert_empty. by apply insert_insert_ne.
  - destruct (txSenders memR !! k1) as [s1|] eqn:H1;
      destruct (txSenders memR !! k2) as [s2|] eqn:H2; simpl;
      rewrite !lookup_insert_ne, ?H1, ?H2 by done; simpl;
      by apply insert_insert_ne.
Qed.

(** X6.  Recording the same sender of the same key a second time changes
    nothing and reports that the key was known. *)
Theorem addSender_twice memR key id :
  addSender (addSender memR key id).1 key id
  = ((addSender memR key id).1, false).
Proof.
  unfold addSender.
  destruct (txSenders memR !! key) as [s|]; simpl;
    rewrite lookup_insert_eq; simpl; f_equal; f_equal;
    rewrite insert_insert_eq; f_equal.
  - apply insert_insert_eq.
  - apply insert_singleton_eq.
Qed.

(** X7.  Recording the first sender of a key and then removing the key
    gives back the reactor as it was. *)
Theorem removeSenders_undoes_first_addSender memR key id :
  txSenders memR !! key = None →
  removeSenders (addSender memR key id).1 key = memR.
Proof.
  intros Hnone. apply Reactor_eq.
  - unfold removeSenders. simpl. apply addSender_mempool.
  - unfold removeSenders, addSender. rewrite Hnone. simpl.
    rewrite delete_insert_eq. by apply delete_id.
Qed.

End sender_map_algebra.

(* --------------------------------------------------------------------- *)
(** ** [updateSendersRoutine] as a whole                                  *)
(* --------------------------------------------------------------------- *)

Section senders_cleanup.
  Context `{Collaborators}.
  Implicit Types (memR : Reactor) (key k : TxKey) (p id : N)
    (deliveries : list SendersSelect).

Lemma updateSendersRoutine_lookup deliveries memR key :
  txSenders (updateSendersRoutine deliveries memR) !! key
  = if decide (key ∈ removed_before_quit deliveries) then None
    else txSenders memR !! key.
Proof.
  revert memR. induction deliveries as [|[k|] rest IH]; intros memR;
    cbn [updateSendersRoutine removed_before_quit].
  - destruct (decide (key ∈ [])) as [Hin|_]; [by apply elem_of_nil in Hin|].
    done.
  - rewrite IH. unfold removeSenders. cbn [txSenders].
    destruct (decide (key = k)) as [->|Hne].
    + rewrite lookup_delete_eq.
      destruct (decide (k ∈ k :: removed_before_quit rest)) as [_|Hn];
        [|exfalso; apply Hn; left].
      by destruct (decide (k ∈ removed_before_quit rest)).
    + rewrite lookup_delete_ne by done.
      destruct (decide (key ∈ removed_before_quit rest)) as [Hin|Hnin];
        destruct (decide (key ∈ k :: removed_before_quit rest))
          as [Hin'|Hnin']; try done.
      * exfalso. apply Hnin'. by right.
      * exfalso. apply elem_of_cons in Hin' as [?|?]; done.
  - destruct (decide (key ∈ [])) as [Hin|_]; [by apply elem_of_nil in Hin|].
    done.
Qed.

Lemma updateSendersRoutine_mempool deliveries memR :
  mempool (updateSendersRoutine deliveries memR) = mempool memR.
Proof.
  revert memR. induction deliveries as [|[k|] rest IH]; intros memR; simpl;
    [done| |done].
  by rewrite IH.
Qed.

(** X8.  What [updateSendersRoutine] leaves behind: the entries of the keys
    it received before its first quit are gone, every other entry is as it
    was, and the pool is not touched. *)
Theorem updateSendersRoutine_removes_exactly_the_delivered
    deliveries memR key p :
  let memR' := updateSendersRoutine deliveries memR in
  txSenders memR' !! key
  = (if decide (key ∈ removed_before_quit deliveries) then None
     else txSenders memR !! key)
  ∧ isSender memR' key p
    = (if decide (key ∈ removed_before_quit deliveries) then false
       else isSender memR key p)
  ∧ mempool memR' = mempool memR.
Proof.
  intros memR'. subst memR'.
  split; [apply updateSendersRoutine_lookup|].
  split; [|apply updateSendersRoutine_mempool].
  unfold isSender. rewrite updateSendersRoutine_lookup.
  by destruct (decide _).
Qed.

(** X9.  Once the quit channel has fired the routine is over: whatever
    is delivered after the first quit has no effect. *)
Theorem updateSendersRoutine_ends_at_quit
    (before after : list SendersSelect) memR :
  updateSendersRoutine (before ++ RecvQuit :: after) memR
  = updateSendersRoutine before memR.
Proof.
  revert memR. induction before as [|[k|] rest IH]; intros memR; simpl;
    [done| |done].
  apply IH.
Qed.

(** X10.  The sender map never grows under [updateSendersRoutine], and it
    is empty afterwards when the removal of every key it holds was
    delivered before the quit. *)
Theorem updateSendersRoutine_empties_delivered_map deliveries memR :
  size (txSenders (updateSendersRoutine deliveries memR))
  ≤ size (txSenders memR)
  ∧ ((∀ key, is_Some (txSenders memR !! key) →
             key ∈ removed_before_quit deliveries) →
     txSenders (updateSendersRoutine deliveries memR) = ∅).
Proof.
  split.
  - apply map_subseteq_size, map_subseteq_spec.
    intros key v. rewrite updateSendersRoutine_lookup.
    by destruct (decide _).
  - intros Hall. apply map_eq. intros key.
    rewrite updateSendersRoutine_lookup, lookup_empty.
    destruct (decide _) as [Hin|Hnin]; [done|].
    destruct (txSenders memR !! key) eqn:Hk; [|done].
    exfalso. apply Hnin, Hall. by rewrite Hk.
Qed.

End senders_cleanup.

(* --------------------------------------------------------------------- *)
(** ** [Receive] as a whole                                               *)
(* --------------------------------------------------------------------- *)

Section receive_effect.
  Context `{Collaborators}.
  Implicit Types (memR : Reactor) (src : Peer) (t : Tx) (txs : list Tx)
    (key k : TxKey) (p : N) (ch : N).

Lemma Receive_txs src ch txs memR :
  let e := {| Src := src; ChannelID := ch; Message_ := MsgTxs txs |} in
  (Receive e memR).1.2 = (Receive_range src txs memR).1.2
  ∧ omap call_of (Receive e memR).2
    = omap call_of (Receive_range src txs memR).2.
Proof.
  intros e. subst e. unfold Receive, act_bind, emit. simpl.
  destruct txs as [|t rest]; [done|].
  change (length (t :: rest) =? 0)%nat with false. cbv iota.
  by destruct (Receive_range src (t :: rest) memR) as [[[] memR'] trace].
Qed.

Lemma Receive_range_isSender src txs memR k p :
  isSender (Receive_range src txs memR).1.2 k p
  = isSender memR k p
    || (bool_decide (p = GetForPeer src) && bool_decide (k ∈ Key <$> txs)).
Proof.
  revert memR. induction txs as [|t rest IH]; intros memR.
  - rewrite fmap_nil. cbn [Receive_range]. unfold act_ret. cbn [fst snd].
    rewrite (bool_decide_eq_false_2 (k ∈ [])) by apply not_elem_of_nil.
    by rewrite andb_false_r, orb_false_r.
  - rewrite Receive_range_cons. cbn [fst snd]. rewrite IH.
    change (isSender {| mempool := ?m; txSenders := txSenders ?r |} k p)
      with (isSender r k p).
    rewrite isSender_addSender, fmap_cons.
    destruct (isSender memR k p); [done|]. simpl.
    destruct (decide (p = GetForPeer src)) as [->|Hp].
    2:{ rewrite !(bool_decide_eq_false_2 (p = _)) by done.
        by rewrite andb_false_r. }
    rewrite !(bool_decide_eq_true_2 (GetForPeer src = _)) by done.
    rewrite andb_true_r. simpl.
    destruct (decide (k = Key t)) as [->|Hk].
    + rewrite bool_decide_eq_true_2 by done.
      rewrite (bool_decide_eq_true_2 (Key t ∈ Key t :: _)) by left. done.
    + rewrite (bool_decide_eq_false_2 (k = Key t)) by done. simpl.
      apply bool_decide_ext. rewrite elem_of_cons. naive_solver.
Qed.

Lemma Receive_range_mempool src txs memR :
  mempool (Receive_range src txs memR).1.2
  = foldl (λ mp t, (CheckTx t mp).1) (mempool memR) txs.
Proof.
  revert memR. induction txs as [|t rest IH]; intros memR; [done|].
  rewrite Receive_range_cons. cbn [fst snd]. rewrite IH. simpl.
  by rewrite addSender_mempool.
Qed.

Lemma Receive_range_app src (a b : list Tx) memR :
  let r1 := Receive_range src a memR in
  let r2 := Receive_range src b r1.1.2 in
  Receive_range src (a ++ b) memR = (tt, r2.1.2, r1.2 ++ r2.2).
Proof.
  revert memR. induction a as [|t rest IH]; intros memR r1 r2;
    subst r1 r2.
  - simpl. by destruct (Receive_range src b memR) as [[[] ?] ?].
  - rewrite <- app_comm_cons, !Receive_range_cons. cbn [fst snd].
    rewrite IH. cbn [fst snd]. f_equal.
    rewrite <- !app_comm_cons. do 2 f_equal. apply app_assoc.
Qed.

(** X11.  After [Receive] of a batch from a peer, the senders are those
    recorded before together with that peer for the key of each payload,
    and nobody else. *)
Theorem Receive_records_exactly_the_source src ch txs memR k p :
  let e := {| Src := src; ChannelID := ch; Message_ := MsgTxs txs |} in
  isSender (Receive e memR).1.2 k p = true
  ↔ isSender memR k p = true
    ∨ (p = GetForPeer src ∧ ∃ t, t ∈ txs ∧ k = Key t).
Proof.
  intros e. subst e.
  rewrite (proj1 (Receive_txs src ch txs memR)).
  rewrite Receive_range_isSender, orb_true_iff, andb_true_iff.
  rewrite !bool_decide_eq_true, list_elem_of_fmap. naive_solver.
Qed.

(** X12.  [Receive] submits the payloads to the pool in the order of the
    batch, each to the pool as the one before left it, whatever the results:
    the pool afterwards is the fold of [CheckTx] over the batch. *)
Theorem Receive_submits_in_order src ch txs memR :
  let e := {| Src := src; ChannelID := ch; Message_ := MsgTxs txs |} in
  mempool (Receive e memR).1.2
  = foldl (λ mp t, (CheckTx t mp).1) (mempool memR) txs.
Proof.
  intros e. subst e.
  rewrite (proj1 (Receive_txs src ch txs memR)).
  apply Receive_range_mempool.
Qed.

(** X13.  One batch has the effect of its two halves received one after
    the other: the same reactor afterwards, and the same calls of
    [addSender] and [CheckTx] in the same order. *)
Theorem Receive_batch_splits src ch (a b : list Tx) memR :
  let e txs := {| Src := src; ChannelID := ch; Message_ := MsgTxs txs |} in
  let r1 := Receive (e a) memR in
  let r2 := Receive (e b) r1.1.2 in
  (Receive (e (a ++ b)) memR).1.2 = r2.1.2
  ∧ omap call_of (Receive (e (a ++ b)) memR).2
    = omap call_of r1.2 ++ omap call_of r2.2.
Proof.
  intros e r1 r2. subst e r1 r2.
  destruct (Receive_txs src ch (a ++ b) memR) as [-> ->].
  destruct (Receive_txs src ch a memR) as [-> ->].
  destruct (Receive_txs src ch b (Receive_range src a memR).1.2)
    as [-> ->].
  rewrite Receive_range_app. cbn [fst snd]. by rewrite omap_app.
Qed.

(** X14.  A reactor that starts with [NewReactor], receives a batch, and
    is then told of the removal of every payload of the batch has an empty
    sender map again, whatever else is delivered afterwards. *)
Theorem Receive_then_removals_leave_no_sender
    src ch txs (mp : CListMempool) (later : list SendersSelect) :
  let e := {| Src := src; ChannelID := ch; Message_ := MsgTxs txs |} in
  let removals := (λ t, RecvTxsRemoved (Key t)) <$> txs in
  txSenders (updateSendersRoutine (removals ++ later)
               (Receive e (NewReactor mp)).1.2) = ∅.
Proof.
  intros e removals. subst e removals.
  rewrite (proj1 (Receive_txs src ch txs (NewReactor mp))).
  apply map_eq. intros k.
  rewrite updateSendersRoutine_lookup, lookup_empty.
  destruct (decide _) as [Hin|Hnin]; [done|].
  assert (k ∉ Key <$> txs) as Hk.
  { intros Hk. apply Hnin. clear Hnin.
    induction txs as [|t rest IH]; [by apply elem_of_nil in Hk|].
    rewrite fmap_cons in Hk. rewrite fmap_cons. simpl.
    apply elem_of_cons in Hk as [->|Hk]; [left|right; by apply IH]. }
  clear Hnin.
  assert (∀ memR, txSenders memR !! k = None →
            txSenders (Receive_range src txs memR).1.2 !! k = None) as Hgen.
  { induction txs as [|t rest IH]; intros memR Hnone; [done|].
    rewrite Receive_range_cons. cbn [fst snd].
    rewrite fmap_cons in Hk. apply not_elem_of_cons in Hk as [Hne Hk].
    apply IH; [done|]. simpl. by apply addSender_entry. }
  apply Hgen. apply lookup_empty.
Qed.

End receive_effect.

(* --------------------------------------------------------------------- *)
(** ** The broadcast loop as a whole                                      *)
(* --------------------------------------------------------------------- *)

Section broadcast_runs.
  Context `{Collaborators}.
  Implicit Types (o : Observation) (obs : list Observation)
    (next : option CElement) (e : CElement) (peerID : N) (t : Tx).

(** The shapes a turn can take. *)
Lemma broadcast_turn_shapes peerID o next :
  let r := broadcast_turn peerID o next in
  r = (LoopReturn, [])
  ∨ r = (LoopContinue None, [])
  ∨ ∃ e, resolve_cursor o next = inl e
         ∧ (r = (LoopContinue (Some e), [Sleep PeerCatchupSleepIntervalMS])
            ∨ r = (LoopContinue (Some e),
                   [Send (tx (Value e)) false;
                    Sleep PeerCatchupSleepIntervalMS])
            ∨ (∃ evs, (evs = [] ∨ evs = [Send (tx (Value e)) true])
                      ∧ (r = (LoopReturn, evs)
                         ∨ r = (LoopContinue
                                  (Next e (mempool (at_Next o))), evs)))).
Proof.
  intros r. subst r. unfold broadcast_turn.
  destruct (negb (memR_IsRunning o) || negb (peer_IsRunning o)); [by left|].
  destruct (resolve_cursor o next) as [e|c] eqn:Hcur.
  2:{ unfold resolve_cursor in Hcur. destruct next as [e|]; [done|].
      destruct (select_TxsWaitChan o);
        [destruct (TxsFront _); [done|]|..];
        injection Hcur as <-; auto. }
  right. right. exists e. split; [done|].
  unfold with_cursor.
  destruct (peer_state o) as [peerHeight|]; [|by left].
  destruct (peer_lags peerHeight (Value e)); [by left|].
  right.
  destruct (send_decision_cases peerID o e)
    as [[_ ->]|[(_ & _ & ->)|(_ & _ & ->)]]; [right| by left |right].
  - exists []. split; [by left|]. unfold advance.
    destruct (select_NextWaitChan o); auto.
  - exists [Send (tx (Value e)) true]. split; [by right|]. unfold advance.
    destruct (select_NextWaitChan o); auto.
Qed.

Lemma resolve_cursor_origin o next e :
  resolve_cursor o next = inl e →
  next = Some e ∨ TxsFront (mempool (at_TxsFront o)) = Some e.
Proof.
  unfold resolve_cursor. destruct next as [e'|]; [intros [= ->]; by left|].
  destruct (select_TxsWaitChan o); [|done..].
  destruct (TxsFront _) as [e'|]; [|done]. intros [= ->]. by right.
Qed.

(** X15.  A turn of the loop sends at most one transaction, so a run of the
    loop makes no more sends, failed ones included, than it has turns. *)
Theorem broadcast_loop_one_send_per_turn peerID obs next :
  length (List.filter is_Send (broadcast_loop peerID obs next)) ≤ length obs.
Proof.
  revert next. induction obs as [|o rest IH]; intros next; [done|].
  cbn [broadcast_loop length].
  assert (∀ c evs, broadcast_turn peerID o next = (c, evs) →
            length (List.filter is_Send evs) ≤ 1) as Hturn.
  { intros c evs Heq.
    destruct (broadcast_turn_shapes peerID o next)
      as [Hr|[Hr|(e & _ & [Hr|[Hr|(evs' & [->| ->] & [Hr|Hr])]])]];
      rewrite Heq in Hr; injection Hr as -> ->; simpl; lia. }
  destruct (broadcast_turn peerID o next) as [[|next'] evs] eqn:Heq.
  - specialize (Hturn _ _ eq_refl). lia.
  - rewrite List.filter_app, length_app.
    specialize (Hturn _ _ eq_refl). specialize (IH next'). lia.
Qed.

(** X16.  Once a turn finds the reactor or the peer stopped the routine
    has returned: nothing is logged, slept or sent in that turn, and the
    turns that would follow never happen. *)
Theorem broadcast_loop_ends_when_stopped
    peerID (before after : list Observation) o next :
  stopped o →
  broadcast_loop peerID (before ++ o :: after) next
  = broadcast_loop peerID before next.
Proof.
  intros Hstop. revert next.
  induction before as [|o' rest IH]; intros next.
  - simpl. unfold broadcast_turn.
    by destruct Hstop as [-> | ->]; [|rewrite orb_true_r].
  - simpl. destruct (broadcast_turn peerID o' next) as [[|next'] evs];
      [done|]. by rewrite IH.
Qed.

(** X17.  For as long as the peer has no state, the loop only sleeps: it
    sends nothing. *)
Theorem broadcast_loop_waits_for_peer_state peerID obs next :
  (∀ o, o ∈ obs → peer_state o = None) →
  Forall (λ ev, ev = Sleep PeerCatchupSleepIntervalMS)
         (broadcast_loop peerID obs next).
Proof.
  revert next. induction obs as [|o rest IH]; intros next Hobs;
    [constructor|].
  assert (peer_state o = None) as Ho by (apply Hobs; left).
  assert (Forall (λ ev, ev = Sleep PeerCatchupSleepIntervalMS)
                 (broadcast_turn peerID o next).2) as Hturn.
  { unfold broadcast_turn.
    destruct (negb (memR_IsRunning o) || negb (peer_IsRunning o));
      [constructor|].
    destruct (resolve_cursor o next) as [e|c]; [|constructor].
    unfold with_cursor. rewrite Ho. by repeat constructor. }
  simpl. destruct (broadcast_turn peerID o next) as [[|next'] evs];
    simpl in Hturn; [done|].
  apply Forall_app. split; [done|]. apply IH.
  intros o' Ho'. apply Hobs. by right.
Qed.

Lemma broadcast_loop_sends_handed_out peerID obs next t success :
  Send t success ∈ broadcast_loop peerID obs next →
  ∃ e, t = tx (Value e) ∧ (next = Some e ∨ handed_out obs e).
Proof.
  revert next. induction obs as [|o rest IH]; intros next Hin.
  { by apply elem_of_nil in Hin. }
  assert (∀ e, handed_out rest e → handed_out (o :: rest) e) as Hweak.
  { intros e (o' & Ho' & Hfrom). exists o'. split; [by right|done]. }
  assert (∀ e, resolve_cursor o next = inl e →
            next = Some e ∨ handed_out (o :: rest) e) as Hres.
  { intros e [->|Hfront]%resolve_cursor_origin; [by left|right].
    exists o. split; [left|by left]. }
  simpl in Hin.
  pose proof (broadcast_turn_send peerID o next t success) as Hsend.
  pose proof (broadcast_turn_shapes peerID o next) as Hshape.
  destruct (broadcast_turn peerID o next) as [c evs]. simpl in *.
  assert (Send t success ∈ evs →
            ∃ e, t = tx (Value e) ∧ (next = Some e ∨ handed_out (o :: rest) e))
    as Hhere.
  { intros Hev. destruct (Hsend Hev) as (e & Hcur & -> & _).
    exists e. split; [done|]. by apply Hres. }
  destruct c as [|next']; [by apply Hhere|].
  apply elem_of_app in Hin as [Hev|Hlater]; [by apply Hhere|].
  destruct (IH _ Hlater) as (e & -> & [->|Hout]).
  2:{ exists e. split; [done|]. right. by apply Hweak. }
  exists e. split; [done|].
  destruct Hshape
    as [Hr|[Hr|(e' & Hcur & [Hr|[Hr|(evs' & _ & [Hr|Hr])]])]];
    simplify_eq.
  - by apply Hres.
  - by apply Hres.
  - right. exists o. split; [left|]. right. by exists e'.
Qed.

(** X18.  The routine sends nothing of its own making: every transaction
    it sends, with or without success, is the transaction of an element
    that [TxsFront()] or some element's [Next()] handed to it in one of its
    turns. *)
Theorem broadcastTxRoutine_sends_pool_elements
    (peer : Peer) obs t success :
  Send t success ∈ broadcastTxRoutine peer obs →
  ∃ e, t = tx (Value e) ∧ handed_out obs e.
Proof.
  intros Hin. unfold broadcastTxRoutine in Hin.
  destruct (broadcast_loop_sends_handed_out _ _ _ _ _ Hin)
    as (e & -> & [Hnone|Hout]); [discriminate|]. by exists e.
Qed.

(** X19.  When all goes well along a chain of elements (reactor and peer
    running, the peer in step and no sender, every send accepted, every
    wait answered by the next element of the chain), the loop sends the
    transactions of the chain once each, in the order of the chain, and
    does nothing else. *)
Theorem broadcast_loop_sends_chain_in_order
    peerID o obs next e (elems : list CElement) :
  resolve_cursor o next = inl e →
  in_step_chain peerID (o :: obs) (e :: elems) →
  broadcast_loop peerID (o :: obs) next
  = (λ e, Send (tx (Value e)) true) <$> (e :: elems).
Proof.
  assert (∀ obs e elems,
            in_step_chain peerID obs (e :: elems) →
            broadcast_loop peerID obs (Some e)
            = (λ e, Send (tx (Value e)) true) <$> (e :: elems)) as Hgen.
  { clear. intros obs. induction obs as [|o obs IH]; intros e elems Hchain;
      [done|].
    destruct Hchain
      as (Hrun & Hprun & (h & Hstate & Hlag) & Hns & Hsend & Hsel & Hnext
          & Hrest).
    cbn [broadcast_loop]. unfold broadcast_turn. rewrite Hrun, Hprun.
    cbn [negb orb resolve_cursor]. unfold with_cursor.
    rewrite Hstate, Hlag. unfold send_decision. rewrite Hns, Hsend.
    cbn [negb]. unfold advance. rewrite Hsel, Hnext. rewrite fmap_cons.
    cbn [app]. f_equal.
    destruct elems as [|e' elems']; cbn [head].
    - destruct obs; [done|destruct Hrest].
    - by apply IH. }
  intros Hcur Hchain.
  destruct (resolve_cursor_origin _ _ _ Hcur) as [->|Hfront];
    [by apply Hgen|].
  pose proof (Hgen (o :: obs) e elems Hchain) as Hsome.
  cbn [broadcast_loop] in Hsome |- *.
  replace (broadcast_turn peerID o next)
    with (broadcast_turn peerID o (Some e)); [done|].
  unfold broadcast_turn. by rewrite Hcur.
Qed.

End broadcast_runs.

(** The loop for peer 3 with the peer stopped in the second turn. *)
Lemma broadcast_loop_ends_witness :
  broadcast_loop 3%N ([turn_1] ++ turn_peer_gone :: [turn_2; turn_3]) None
  = broadcast_loop 3%N [turn_1] None.
Proof.
  apply (broadcast_loop_ends_when_stopped 3%N [turn_1] [turn_2; turn_3]
           turn_peer_gone None).
  right. reflexivity.
Defined.

(** Two turns without peer state. *)
Lemma broadcast_loop_waits_witness :
  Forall (λ ev, ev = Sleep PeerCatchupSleepIntervalMS)
         (broadcast_loop 3%N [turn_no_state; turn_no_state] None).
Proof.
  apply (broadcast_loop_waits_for_peer_state 3%N
           [turn_no_state; turn_no_state] None).
  intros o Ho.
  apply elem_of_cons in Ho as [->|Ho]; [reflexivity|].
  apply elem_of_cons in Ho as [->|Ho]; [reflexivity|].
  by apply elem_of_nil in Ho.
Defined.

(** T is sent in the run of three turns, and was handed out. *)
Lemma broadcastTxRoutine_sends_pool_witness :
  ∃ e, tx_T = tx (Value e) ∧ handed_out [turn_1; turn_2; turn_3] e.
Proof.
  apply (@broadcastTxRoutine_sends_pool_elements list_collaborators
           3%nat [turn_1; turn_2; turn_3] tx_T true).
  vm_compute. left.
Defined.

(** The pool holds T then U and nothing changes: two turns send T, U. *)
Lemma broadcast_loop_chain_witness :
  broadcast_loop 3%N [turn_1; turn_1] None
  = (λ e, Send (tx (Value e)) true) <$> [elem_T; elem_U].
Proof.
  apply (broadcast_loop_sends_chain_in_order 3%N turn_1 [turn_1] None
           elem_T [elem_U]); [reflexivity|].
  vm_compute. repeat split; try reflexivity; by exists 1%Z.
Defined.

(** The first sender of T, recorded in a fresh reactor and removed again. *)
Lemma removeSenders_undoes_witness :
  removeSenders (addSender fresh_reactor (Key tx_T) 3%N).1 (Key tx_T)
  = fresh_reactor.
Proof.
  apply (removeSenders_undoes_first_addSender fresh_reactor (Key tx_T) 3%N).
  reflexivity.
Defined.

(* --------------------------------------------------------------------- *)
(** ** The lane validator with string lane identifiers                    *)
(* --------------------------------------------------------------------- *)

(** X20.  With [types.LaneID] a string type, a lane configuration is valid
    exactly when it is empty altogether (no lanes, no default lane) or its
    default lane is a non-empty name that is a key of the lanes. *)
Theorem validate_string_lanes_valid_iff (info : LaneData) :
  validate (H := string_LaneID) info = None
  ↔ (lanes info = ∅ ∧ defaultLane info = EmptyString)
    ∨ (defaultLane info ≠ EmptyString
       ∧ is_Some (lanes info !! defaultLane info)).
Proof.
  rewrite (validate_nil_iff (H := string_LaneID)).
  assert (inv4 (H := string_LaneID) info) as Hinv4
    by (intros n1 n2 _ _; done).
  unfold inv1, inv2, inv3.
  rewrite <- (map_size_empty_iff (lanes info)).
  destruct (decide (size (lanes info) = 0)) as [Hz|Hnz].
  - assert (lanes info !! defaultLane info = None) as Hnone.
    { apply map_size_empty_iff in Hz. rewrite Hz. apply lookup_empty. }
    rewrite Hnone. split.
    + intros (H1 & _). left. split; [done|]. by apply H1.
    + intros [[_ Hd]|[_ [? ?]]]; [|done].
      split; [done|]. split; [intros Hne; by destruct Hne|].
      split; [intros Hne; by destruct Hne|done].
  - split.
    + intros (_ & _ & H3 & _). right. by apply H3.
    + intros [[Hz _]|[Hd Hin]]; [done|].
      split; [done|]. split; [done|]. split; done.
Qed.
